(** * truthbeam: the enrichment cache coordinator

    A shallow embedding of the [truthbeam] processor's caching client
    ([internal/client/cacheable.go], both revisions of [Retrieve] and
    [callEnrich] found in the repository) and of the batch loop
    [processLogs], together with the properties of the cache coordinator.

    Go values are modelled as follows:
    - [error] values as a small inductive with [Error] and [Unwrap];
    - [time.Duration] and Unix nanosecond instants as [Z];
    - the [map[string]Item] inside go-cache as [gmap string Item];
    - the mutable client, the remote service and the logger as one record
      threaded through every call;
    - goroutines as threads of an interleaving machine whose atomic steps
      are the statements of [Retrieve]. *)

From stdpp Require Import base option list strings gmap pretty.
From Stdlib Require Import ZArith Lia.

Local Open Scope Z_scope.

(** ** Go errors *)

(** [errors.New] and [fmt.Errorf] without [%w] give a plain message;
    [fmt.Errorf] with [%w] keeps the wrapped error for [errors.Unwrap]. *)
Inductive error : Type :=
  | errorString (s : string)
  | wrapError (msg : string) (err : error).

Definition Error (e : error) : string :=
  match e with
  | errorString s => s
  | wrapError msg _ => msg
  end.

Definition Unwrap (e : error) : option error :=
  match e with
  | errorString _ => None
  | wrapError _ err => Some err
  end.

(** [fmt.Errorf(prefix + "%w", err)] *)
Definition Errorf_w (prefix : string) (err : error) : error :=
  wrapError (prefix +:+ Error err) err.

(** [errors.Is(e, target)] along the [Unwrap] chain. *)
Fixpoint wraps (e target : error) : Prop :=
  e = target \/
  match e with
  | errorString _ => False
  | wrapError _ err => wraps err target
  end.

(** Does [s] occur in [t] as a contiguous substring? *)
Fixpoint contains (s t : string) : bool :=
  String.prefix s t ||
  match t with
  | EmptyString => false
  | String _ t' => contains s t'
  end.

(** ** The generated API types the client uses *)

Record Policy : Type := Build_Policy {
  PolicyRuleId : string;
  PolicyEngineName : string
}.

Record EnrichmentRequest : Type := Build_EnrichmentRequest {
  req_Policy : Policy
}.

(** The structured error body of the remote service. *)
Record ApiError : Type := Build_ApiError {
  Code : Z;
  Message : string
}.

(** [*http.Response], reduced to the status line, which [callEnrich] reads,
    and to the status code and the body, which the response parser reads. *)
Record HttpResponse : Type := Build_HttpResponse {
  Status : string;
  StatusCode : Z;
  Body : string
}.

(** ** zap log entries *)

Inductive Level : Type := DebugLevel | ErrorLevel.

Record LogEntry : Type := Build_LogEntry {
  log_level : Level;
  log_msg : string;
  log_fields : list (string * string)
}.

(** [zap.String(k, v)] and [zap.Error(err)] *)
Definition zap_String (k v : string) : string * string := (k, v).
Definition zap_Error (err : error) : string * string := ("error"%string, Error err).

(** ** go-cache *)

(** Modelled from the spec: the Cache Store is the third-party package
    [github.com/patrickmn/go-cache], which is not part of the sources.  The
    constants follow the comment on [NewCacheableClient] ("If ttl is -1, the
    cache will never expire (go-cache treats durations < 1ns as no
    expiration)"). *)
Definition NoExpiration : Z := -1.

(** Modelled from the spec: go-cache's marker for "use the TTL the cache was
    configured with". *)
Definition DefaultExpiration : Z := 0.

Section Client.

(** The compliance metadata type of the generated client, with its Go zero
    value [Compliance{}]. *)
Context {Compliance : Type} (Compliance_zero : Compliance).

Record EnrichmentResponse : Type := Build_EnrichmentResponse {
  resp_Compliance : Compliance
}.

(** The parsed response of [ParsePostV1EnrichResponse]: at most one of the
    two typed bodies is filled in by the generated parser. *)
Record PostV1EnrichResponse : Type := Build_PostV1EnrichResponse {
  JSON200 : option EnrichmentResponse;
  JSONDefault : option ApiError
}.

(** Modelled from the spec: a CacheEntry, go-cache's [Item]: the stored
    object and the Unix nanosecond instant after which it is treated as
    absent ([0] for an entry that never expires). *)
Record Item : Type := Build_Item {
  Object : Compliance;
  Expiration : Z
}.

(** Modelled from the spec: the Cache Store, go-cache's [Cache]: the
    configured TTL, the janitor's interval and the entries. *)
Record Cache : Type := Build_Cache {
  defaultExpiration : Z;
  cleanupInterval : Z;
  items : gmap string Item
}.

(** Modelled from the spec: [cache.New(ttl, cleanup)], an empty store; a
    zero TTL is read as "never expire". *)
Definition cache_New (de ci : Z) : Cache :=
  {| defaultExpiration := if decide (de = 0) then -1 else de;
     cleanupInterval := ci;
     items := ∅ |}.

(** Modelled from the spec: [Get(key) -> (value, found)] at instant [now];
    an expired entry behaves like an absent one. *)
Definition cache_Get (c : Cache) (now : Z) (k : string) : option Compliance :=
  match items c !! k with
  | None => None
  | Some item =>
      if decide (Expiration item > 0) then
        if decide (now > Expiration item) then None else Some (Object item)
      else Some (Object item)
  end.

(** Modelled from the spec: [Set(key, value, d)] at instant [now]; with
    [DefaultExpiration] the configured TTL is used, and a TTL that is not
    positive stores an entry that never expires. *)
Definition cache_Set (c : Cache) (now : Z) (k : string) (x : Compliance) (d : Z) : Cache :=
  let d := if decide (d = DefaultExpiration) then defaultExpiration c else d in
  let e := if decide (d > 0) then now + d else 0 in
  {| defaultExpiration := defaultExpiration c;
     cleanupInterval := cleanupInterval c;
     items := <[k := {| Object := x; Expiration := e |}]> (items c) |}.

(** Modelled from the spec: the background reclamation ([DeleteExpired]),
    run by go-cache's janitor every [cleanupInterval]. *)
Definition cache_DeleteExpired (c : Cache) (now : Z) : Cache :=
  {| defaultExpiration := defaultExpiration c;
     cleanupInterval := cleanupInterval c;
     items := filter (fun kv => ¬ (Expiration kv.2 > 0 ∧ now > Expiration kv.2)) (items c) |}.

(** An entry that [Get] serves at instant [now]: it never expires, or its
    expiration instant has not passed. *)
Definition unexpired (item : Item) (now : Z) : Prop :=
  Expiration item ≤ 0 ∨ now ≤ Expiration item.

(** ** The remote service *)

(** The generated HTTP client is not part of the sources; its behaviour is a
    parameter.  [PostV1Enrich n req] is what the [n]-th call made through
    the client returns for [req] (a transport error or a response), and
    [ParsePostV1EnrichResponse] is the generated response parser. *)
Context (PostV1Enrich : nat → EnrichmentRequest → error + HttpResponse).
Context (ParsePostV1EnrichResponse : HttpResponse → error + PostV1EnrichResponse).

(** ** [CacheableClient] *)

(** The client as one value: the cache, the requests sent so far through
    [client] (which also number the calls), and what [logger] has written.
    The mutex [mu] belongs to the interleaving machine below. *)
Record CacheableClient : Type := Build_CacheableClient {
  cache : Cache;
  calls : list EnrichmentRequest;
  logger : list LogEntry
}.

(** [NewCacheableClient(client, logger, ttl)] *)
Definition NewCacheableClient (ttl : Z) : CacheableClient :=
  let cleanup := if decide (ttl = NoExpiration) then NoExpiration else ttl `quot` 2 in
  {| cache := cache_New ttl cleanup; calls := []; logger := [] |}.

Definition log_write (e : LogEntry) (c : CacheableClient) : CacheableClient :=
  {| cache := cache c; calls := calls c; logger := logger c ++ [e] |}.

Definition record_call (req : EnrichmentRequest) (c : CacheableClient) : CacheableClient :=
  {| cache := cache c; calls := calls c ++ [req]; logger := logger c |}.

Definition store (now : Z) (k : string) (x : Compliance) (c : CacheableClient) : CacheableClient :=
  {| cache := cache_Set (cache c) now k x DefaultExpiration;
     calls := calls c; logger := logger c |}.

(** The two errors [callEnrich] builds itself. *)
Definition api_error (e : ApiError) : error :=
  errorString ("API call failed with status " +:+ pretty (Code e) +:+ ": " +:+ Message e).

Definition unexpected_response (resp : HttpResponse) : error :=
  errorString ("unexpected response status: " +:+ Status resp).

(** What [callEnrich] returns once the [n]-th round trip has produced its
    outcome: cacheable.go, lines 85-104.  Every [return] of the function
    sets exactly one of the response and the error, so Go's pair is a sum
    here.  [ctx] only travels on to [PostV1Enrich]: a cancelled or expired
    context is one of the transport errors of the parameter. *)
Definition enrich_result (n : nat) (req : EnrichmentRequest) : error + EnrichmentResponse :=
  match PostV1Enrich n req with
  | inl err => inl err
  | inr resp =>
      match ParsePostV1EnrichResponse resp with
      | inl err => inl err
      | inr parsedResp =>
          match JSON200 parsedResp with
          | Some r => inr r
          | None =>
              match JSONDefault parsedResp with
              | Some e => inl (api_error e)
              | None => inl (unexpected_response resp)
              end
          end
      end
  end.

Definition callEnrich_debug (req : EnrichmentRequest) : LogEntry :=
  {| log_level := DebugLevel;
     log_msg := "calling compass enrich API";
     log_fields := [zap_String "policy_rule_id" (PolicyRuleId (req_Policy req));
                    zap_String "policy_engine_name" (PolicyEngineName (req_Policy req))] |}.

(** [callEnrich], cacheable.go: log, send the request, map the outcome. *)
Definition callEnrich (req : EnrichmentRequest) (c : CacheableClient)
  : (error + EnrichmentResponse) * CacheableClient :=
  let c := log_write (callEnrich_debug req) c in
  (enrich_result (length (calls c)) req, record_call req c).

Definition Retrieve_failed (policy : Policy) (err : error) : LogEntry :=
  {| log_level := ErrorLevel;
     log_msg := "enrichment API call failed";
     log_fields := [zap_String "policy_rule_id" (PolicyRuleId policy);
                    zap_String "policy_engine_name" (PolicyEngineName policy);
                    zap_Error err] |}.

(** [Retrieve], cacheable.go.  [now] is the reading of the clock during the
    call; the lock is taken and released inside the call, so it does not
    show in a run without other goroutines. *)
Definition Retrieve (now : Z) (policy : Policy) (c : CacheableClient)
  : (Compliance * option error) * CacheableClient :=
  match cache_Get (cache c) now (PolicyRuleId policy) with
  | Some value => ((value, None), c)
  | None =>
      (* c.mu.Lock(); defer c.mu.Unlock() *)
      match cache_Get (cache c) now (PolicyRuleId policy) with
      | Some value => ((value, None), c)
      | None =>
          let req := {| req_Policy := policy |} in
          let '(r, c) := callEnrich req c in
          match r with
          | inl err =>
              let c := log_write (Retrieve_failed policy err) c in
              ((Compliance_zero, Some (Errorf_w "failed to fetch metadata: " err)), c)
          | inr resp =>
              let compliance := resp_Compliance resp in
              let c := store now (PolicyRuleId policy) compliance c in
              ((compliance, None), c)
          end
      end
  end.

(** ** The second revision of the client (part_000) *)

(** [callEnrich] of part_000: no debug entry, and every parsed response
    without a [JSON200] body is an unexpected response. *)
Definition enrich_result_part000 (n : nat) (req : EnrichmentRequest) : error + EnrichmentResponse :=
  match PostV1Enrich n req with
  | inl err => inl err
  | inr resp =>
      match ParsePostV1EnrichResponse resp with
      | inl err => inl err
      | inr parsedResp =>
          match JSON200 parsedResp with
          | None => inl (unexpected_response resp)
          | Some r => inr r
          end
      end
  end.

Definition callEnrich_part000 (req : EnrichmentRequest) (c : CacheableClient)
  : (error + EnrichmentResponse) * CacheableClient :=
  (enrich_result_part000 (length (calls c)) req, record_call req c).

(** [fetchMetadata], part_000. *)
Definition fetchMetadata (policy : Policy) (c : CacheableClient)
  : (Compliance * option error) * CacheableClient :=
  let req := {| req_Policy := policy |} in
  let '(r, c) := callEnrich_part000 req c in
  match r with
  | inl err => ((Compliance_zero, Some (Errorf_w "failed to call metadata API: " err)), c)
  | inr resp => ((resp_Compliance resp, None), c)
  end.

(** [Retrieve], part_000: after the lock is taken the fetch follows at
    once. *)
Definition Retrieve_part000 (now : Z) (policy : Policy) (c : CacheableClient)
  : (Compliance * option error) * CacheableClient :=
  match cache_Get (cache c) now (PolicyRuleId policy) with
  | Some value => ((value, None), c)
  | None =>
      (* c.mu.Lock(); defer c.mu.Unlock() *)
      let '((compliance, err), c) := fetchMetadata policy c in
      match err with
      | Some err => ((Compliance_zero, Some (Errorf_w "failed to fetch metadata: " err)), c)
      | None =>
          let c := store now (PolicyRuleId policy) compliance c in
          ((compliance, None), c)
      end
  end.

(** The two revisions of the client found in the repository. *)
Inductive revision : Type :=
  | Cacheable   (* truthbeam/internal/client/cacheable.go *)
  | Part000.    (* part_000, the revision without the second check *)

Definition Retrieve_of (rv : revision) :=
  match rv with
  | Cacheable => Retrieve
  | Part000 => Retrieve_part000
  end.

(** A history of [Retrieve] calls made one after the other, each with the
    instant it is made at; the client as the last call leaves it. *)
Fixpoint Retrieve_all (rv : revision) (h : list (Z * Policy)) (c : CacheableClient)
  : CacheableClient :=
  match h with
  | [] => c
  | (now, policy) :: h => Retrieve_all rv h (snd (Retrieve_of rv now policy c))
  end.

(** With a TTL that is not positive every entry of the store is permanent. *)
Definition permanent (c : CacheableClient) : Prop :=
  defaultExpiration (cache c) ≤ 0 ∧
  ∀ k item, items (cache c) !! k = Some item → Expiration item = 0.

(** ** Goroutines calling [Retrieve] concurrently *)

(** Where a goroutine stands inside [Retrieve].  Every constructor is one
    statement of the function; go-cache guards its map with its own lock, so
    a [Get] or a [Set] is one atomic step. *)
Inductive pc : Type :=
  | AtFastGet                                   (* the first c.cache.Get *)
  | AtLock                                      (* c.mu.Lock() *)
  | AtSecondGet                                 (* the Get under the lock (cacheable.go) *)
  | AtCall                                      (* about to send the request *)
  | InFlight (n : nat)                          (* call n sent, response awaited *)
  | AtSet (compliance : Compliance)             (* c.cache.Set *)
  | AtUnlock (ret : Compliance * option error)  (* the deferred c.mu.Unlock() *)
  | Returned (ret : Compliance * option error).

Record Goroutine : Type := Build_Goroutine {
  g_policy : Policy;
  g_pc : pc
}.

(** The shared client, the clock, the holder of [mu] and the goroutines. *)
Record System : Type := Build_System {
  sys_client : CacheableClient;
  sys_now : Z;
  sys_mu : option nat;
  sys_threads : list Goroutine
}.

Definition with_pc (p : pc) (g : Goroutine) : Goroutine :=
  {| g_policy := g_policy g; g_pc := p |}.

Definition set_pc (i : nat) (p : pc) (s : System) : System :=
  {| sys_client := sys_client s; sys_now := sys_now s; sys_mu := sys_mu s;
     sys_threads := alter (with_pc p) i (sys_threads s) |}.

Definition set_mu (m : option nat) (s : System) : System :=
  {| sys_client := sys_client s; sys_now := sys_now s; sys_mu := m;
     sys_threads := sys_threads s |}.

Definition set_client (c : CacheableClient) (s : System) : System :=
  {| sys_client := c; sys_now := sys_now s; sys_mu := sys_mu s;
     sys_threads := sys_threads s |}.

(** The statement after [c.mu.Lock()]. *)
Definition after_lock (rv : revision) : pc :=
  match rv with
  | Cacheable => AtSecondGet
  | Part000 => AtCall
  end.

(** Sending the request: cacheable.go writes its debug entry first. *)
Definition send (rv : revision) (req : EnrichmentRequest) (c : CacheableClient) : CacheableClient :=
  match rv with
  | Cacheable => record_call req (log_write (callEnrich_debug req) c)
  | Part000 => record_call req c
  end.

Definition enrich_result_of (rv : revision) :=
  match rv with
  | Cacheable => enrich_result
  | Part000 => enrich_result_part000
  end.

(** What [Retrieve] does with a failed fetch: the value it returns and the
    log entry it writes (cacheable.go only). *)
Definition fetch_failed (rv : revision) (policy : Policy) (err : error) (c : CacheableClient)
  : (Compliance * option error) * CacheableClient :=
  match rv with
  | Cacheable =>
      ((Compliance_zero, Some (Errorf_w "failed to fetch metadata: " err)),
       log_write (Retrieve_failed policy err) c)
  | Part000 =>
      ((Compliance_zero,
        Some (Errorf_w "failed to fetch metadata: " (Errorf_w "failed to call metadata API: " err))),
       c)
  end.

(** One statement of goroutine [i]; [None] when it cannot move (it waits for
    the lock, or it has returned). *)
Definition step_thread (rv : revision) (i : nat) (s : System) : option System :=
  match sys_threads s !! i with
  | None => None
  | Some g =>
      let policy := g_policy g in
      let c := sys_client s in
      match g_pc g with
      | AtFastGet =>
          match cache_Get (cache c) (sys_now s) (PolicyRuleId policy) with
          | Some value => Some (set_pc i (Returned (value, None)) s)
          | None => Some (set_pc i AtLock s)
          end
      | AtLock =>
          match sys_mu s with
          | Some _ => None
          | None => Some (set_mu (Some i) (set_pc i (after_lock rv) s))
          end
      | AtSecondGet =>
          match cache_Get (cache c) (sys_now s) (PolicyRuleId policy) with
          | Some value => Some (set_pc i (AtUnlock (value, None)) s)
          | None => Some (set_pc i AtCall s)
          end
      | AtCall =>
          let req := {| req_Policy := policy |} in
          Some (set_client (send rv req c) (set_pc i (InFlight (length (calls c))) s))
      | InFlight n =>
          match enrich_result_of rv n {| req_Policy := policy |} with
          | inl err =>
              let '(ret, c) := fetch_failed rv policy err c in
              Some (set_client c (set_pc i (AtUnlock ret) s))
          | inr resp => Some (set_pc i (AtSet (resp_Compliance resp)) s)
          end
      | AtSet compliance =>
          Some (set_client (store (sys_now s) (PolicyRuleId policy) compliance c)
                  (set_pc i (AtUnlock (compliance, None)) s))
      | AtUnlock ret => Some (set_mu None (set_pc i (Returned ret) s))
      | Returned _ => None
      end
  end.

(** What can happen next: a goroutine runs one statement, time passes, or
    go-cache's janitor sweeps the expired entries. *)
Inductive event : Type :=
  | Run (i : nat)
  | Tick (d : Z)
  | Janitor.

Definition step (rv : revision) (ev : event) (s : System) : option System :=
  match ev with
  | Run i => step_thread rv i s
  | Tick d =>
      if decide (0 ≤ d) then
        Some {| sys_client := sys_client s; sys_now := sys_now s + d;
                sys_mu := sys_mu s; sys_threads := sys_threads s |}
      else None
  | Janitor =>
      let c := sys_client s in
      if decide (cleanupInterval (cache c) > 0) then
        Some (set_client {| cache := cache_DeleteExpired (cache c) (sys_now s);
                            calls := calls c; logger := logger c |} s)
      else None
  end.

Fixpoint run (rv : revision) (evs : list event) (s : System) : option System :=
  match evs with
  | [] => Some s
  | ev :: evs =>
      match step rv ev s with
      | None => None
      | Some s' => run rv evs s'
      end
  end.

(** Goroutines that have just called [Retrieve], one per policy. *)
Definition spawn (policies : list Policy) : list Goroutine :=
  map (fun p => {| g_policy := p; g_pc := AtFastGet |}) policies.

Definition start (c : CacheableClient) (now : Z) (policies : list Policy) : System :=
  {| sys_client := c; sys_now := now; sys_mu := None; sys_threads := spawn policies |}.

Definition in_flight (g : Goroutine) : bool :=
  match g_pc g with
  | InFlight _ => true
  | _ => false
  end.

(** How many remote fetches are in flight. *)
Definition fetches_in_flight (s : System) : nat :=
  length (filter (fun g => in_flight g = true) (sys_threads s)).

Definition holds_lock (p : pc) : bool :=
  match p with
  | AtSecondGet | AtCall | InFlight _ | AtSet _ | AtUnlock _ => true
  | AtFastGet | AtLock | Returned _ => false
  end.

(** How many requests for the rule identifier [k] the client has sent. *)
Definition fetches_for (k : string) (c : CacheableClient) : nat :=
  length (filter (fun req => PolicyRuleId (req_Policy req) = k) (calls c)).

(** No goroutine but the holder of [mu] is inside the critical section. *)
Definition mutex_inv (s : System) : Prop :=
  ∀ i g, sys_threads s !! i = Some g → holds_lock (g_pc g) = true → sys_mu s = Some i.

(** Whoever is recorded as the holder of [mu] is inside the critical
    section. *)
Definition owner_inv (s : System) : Prop :=
  ∀ i, sys_mu s = Some i →
       ∃ g, sys_threads s !! i = Some g ∧ holds_lock (g_pc g) = true.

(** The statements between the decision to fetch and the store of the
    result. *)
Definition fetching (p : pc) : bool :=
  match p with
  | AtCall | InFlight _ | AtSet _ => true
  | _ => false
  end.

(** No goroutine is fetching a key that the store serves. *)
Definition miss_inv (s : System) : Prop :=
  ∀ i g, sys_threads s !! i = Some g → fetching (g_pc g) = true →
         cache_Get (cache (sys_client s)) (sys_now s) (PolicyRuleId (g_policy g)) = None.

(** The key [k] is served by [item], [n0] requests have been sent for it,
    and its callers are where they started or have returned the cached
    value. *)
Definition hit_inv (k : string) (item : Item) (n0 : nat) (s : System) : Prop :=
  items (cache (sys_client s)) !! k = Some item ∧
  fetches_for k (sys_client s) = n0 ∧
  ∀ i g, sys_threads s !! i = Some g → PolicyRuleId (g_policy g) = k →
         g_pc g = AtFastGet ∨ g_pc g = Returned (Object item, None).

Definition result_of (g : Goroutine) : option (Compliance * option error) :=
  match g_pc g with
  | Returned ret => Some ret
  | _ => None
  end.

(** *** The state of the callers for one key

    These describe a run of cacheable.go from the point of view of one
    key [k]: [t0] is the instant the callers start at, [de0] the TTL of the
    cache and [n0] the number of requests for [k] sent before. *)

(** Where the callers of [Retrieve] for the key stand as a group: nobody
    has sent a request yet; goroutine [i] has sent one and is inside the
    critical section; the value [v] has been stored. *)
Inductive phase : Type :=
  | Unfetched
  | Fetching (i : nat)
  | Fetched (v : Compliance).

(** Where a caller for the key can be in each phase. *)
Definition pc_ok (ph : phase) (j : nat) (p : pc) : Prop :=
  match ph, p with
  | Unfetched, (AtFastGet | AtLock | AtSecondGet | AtCall) => True
  | Fetching i, (InFlight _ | AtSet _) => j = i
  | Fetching i, (AtFastGet | AtLock) => j ≠ i
  | Fetched v, (AtFastGet | AtLock | AtSecondGet) => True
  | Fetched v, (AtUnlock r | Returned r) => r = (v, None)
  | _, _ => False
  end.

(** The entry for [k] holds [v] and lasts until [t0 + de0] at least. *)
Definition served (k : string) (t0 de0 : Z) (c : Cache) (v : Compliance) : Prop :=
  ∃ item, items c !! k = Some item ∧ Object item = v ∧
          (Expiration item ≤ 0 ∨ (0 < de0 ∧ t0 + de0 ≤ Expiration item)).

Definition phase_ok (k : string) (t0 de0 : Z) (n0 : nat) (ph : phase)
    (c : CacheableClient) (now : Z) (ts : list Goroutine) : Prop :=
  match ph with
  | Unfetched => cache_Get (cache c) now k = None ∧ fetches_for k c = n0
  | Fetching i =>
      cache_Get (cache c) now k = None ∧ fetches_for k c = S n0 ∧
      ∃ g, ts !! i = Some g ∧ PolicyRuleId (g_policy g) = k
  | Fetched v => served k t0 de0 (cache c) v ∧ fetches_for k c = S n0
  end.

(** The invariant of the runs of cacheable.go. *)
Definition dedup_inv (k : string) (t0 de0 : Z) (n0 : nat) (s : System) : Prop :=
  mutex_inv s ∧
  defaultExpiration (cache (sys_client s)) = de0 ∧
  t0 ≤ sys_now s ∧
  ∃ ph,
    (∀ j g, sys_threads s !! j = Some g → PolicyRuleId (g_policy g) = k →
            pc_ok ph j (g_pc g)) ∧
    phase_ok k t0 de0 n0 ph (sys_client s) (sys_now s) (sys_threads s).

(** The run stays within the lifetime of a freshly stored entry. *)
Definition in_time (t0 de0 : Z) (s : System) : Prop :=
  de0 ≤ 0 ∨ sys_now s ≤ t0 + de0.

(** ** The pipeline adapter: [processLogs] *)

(** The evidence records and the applier ([internal/applier]) are not part
    of the sources: the record type, the status type and the two operations
    [Extract] and [Apply] are parameters.  [Apply] works on the record in
    place; it is given the record and returns it as it has left it. *)
Context {LogRecord EvidenceStatus : Type}.
Context (Extract : LogRecord → error + Policy * EvidenceStatus).
Context (Apply : LogRecord → Compliance → EvidenceStatus → LogRecord * option error).

(** [plog.Logs]: resources, their scopes, the scopes' records. *)
Record ScopeLogs : Type := Build_ScopeLogs {
  LogRecords : list LogRecord
}.

Record ResourceLogs : Type := Build_ResourceLogs {
  ScopeLogs_of : list ScopeLogs
}.

Definition Logs : Type := list ResourceLogs.

(** [for k := 0; k < xs.Len(); k++ { body(xs.At(k)) }], where the body may
    change the element and the client. *)
Fixpoint for_each {A : Type} (body : A → CacheableClient → A * CacheableClient)
    (xs : list A) (c : CacheableClient) : list A * CacheableClient :=
  match xs with
  | [] => ([], c)
  | x :: xs =>
      let '(x', c) := body x c in
      let '(xs', c) := for_each body xs c in
      (x' :: xs', c)
  end.

Definition extract_failed (err : error) : LogEntry :=
  {| log_level := ErrorLevel;
     log_msg := "Failed to extract evidence from log record";
     log_fields := [zap_Error err] |}.

Definition enrichment_failed (policy : Policy) (err : error) : LogEntry :=
  {| log_level := ErrorLevel;
     log_msg := "failed to get enrichment";
     log_fields := [zap_String "policy_id" (PolicyRuleId policy); zap_Error err] |}.

Definition apply_failed (policy : Policy) (err : error) : LogEntry :=
  {| log_level := ErrorLevel;
     log_msg := "failed to apply enrichment";
     log_fields := [zap_String "policy_id" (PolicyRuleId policy); zap_Error err] |}.

(** The body of the innermost loop of [processLogs]. *)
Definition processRecord (rv : revision) (now : Z) (logRecord : LogRecord) (c : CacheableClient)
  : LogRecord * CacheableClient :=
  match Extract logRecord with
  | inl err => (logRecord, log_write (extract_failed err) c)                 (* continue *)
  | inr (policy, status) =>
      let '((enrichment, err), c) := Retrieve_of rv now policy c in
      match err with
      | Some err => (logRecord, log_write (enrichment_failed policy err) c)  (* continue *)
      | None =>
          let '(logRecord, err) := Apply logRecord enrichment status in
          match err with
          | Some err => (logRecord, log_write (apply_failed policy err) c)
          | None => (logRecord, c)
          end
      end
  end.

(** [processLogs]: the three nested loops, then [return ld, nil]. *)
Definition processLogs (rv : revision) (now : Z) (ld : Logs) (c : CacheableClient)
  : (Logs * option error) * CacheableClient :=
  let '(ld, c) :=
    for_each (fun rs c =>
      let '(ilss, c) :=
        for_each (fun ils c =>
          let '(logs, c) := for_each (processRecord rv now) (LogRecords ils) c in
          ({| LogRecords := logs |}, c))
          (ScopeLogs_of rs) c in
      ({| ScopeLogs_of := ilss |}, c))
      ld c in
  ((ld, None), c).

(** The records of a batch in the order of the three loops. *)
Definition records (ld : Logs) : list LogRecord :=
  concat (map (fun rs => concat (map LogRecords (ScopeLogs_of rs))) ld).

(** The policy [Extract] reads from a record, when it reads one. *)
Definition extracted (logRecord : LogRecord) : option Policy :=
  match Extract logRecord with
  | inl _ => None
  | inr (policy, _) => Some policy
  end.

(** How many records each scope of each resource holds. *)
Definition shape (ld : Logs) : list (list nat) :=
  map (fun rs => map (fun ils => length (LogRecords ils)) (ScopeLogs_of rs)) ld.

(** Does the record go through [processLogs] without being enriched? *)
Definition fails (rv : revision) (now : Z) (logRecord : LogRecord) (c : CacheableClient) : Prop :=
  match Extract logRecord with
  | inl _ => True
  | inr (policy, _) => is_Some (snd (fst (Retrieve_of rv now policy c)))
  end.

(** ** The processor and its life cycle (config.go, part_001) *)

(** [Config], reduced to the endpoint of the embedded client configuration
    and the TTL. *)
Record Config : Type := Build_Config {
  Endpoint : string;
  CacheTTL : Z
}.

(** [Config.Validate] *)
Definition Validate (cfg : Config) : option error :=
  if decide (Endpoint cfg = "") then Some (errorString "endpoint must be specified")
  else None.

(** A [component.Config] is an interface value: it holds a [*Config] of
    this package or something else. *)
Inductive component_Config : Type :=
  | IsConfig (cfg : Config)
  | OtherConfig.

(** The processor.  The zap logger is shared with the client: what has been
    logged is kept in [tb_logger] as long as there is no client, and in the
    client afterwards. *)
Record truthBeamProcessor : Type := Build_truthBeamProcessor {
  tb_config : Config;
  tb_logger : list LogEntry;
  tb_client : option CacheableClient
}.

(** [newTruthBeamProcessor]: the client is nil until [start]. *)
Definition newTruthBeamProcessor (conf : component_Config) (logger : list LogEntry)
  : error + truthBeamProcessor :=
  match conf with
  | OtherConfig => inl (errorString "invalid configuration provided")
  | IsConfig cfg => inr {| tb_config := cfg; tb_logger := logger; tb_client := None |}
  end.

(** [start].  The HTTP client of the collector and the generated base
    client are not part of the sources: building them is given by the two
    functions [ToClient] and [NewClient], which may fail.  The base client
    built here is the one whose [PostV1Enrich] is the parameter above. *)
Definition truthBeamProcessor_start {HttpClient BaseClient : Type}
    (ToClient : Config → error + HttpClient)
    (NewClient : string → HttpClient → error + BaseClient)
    (t : truthBeamProcessor) : option error * truthBeamProcessor :=
  match ToClient (tb_config t) with
  | inl err => (Some err, t)
  | inr httpClient =>
      match NewClient (Endpoint (tb_config t)) httpClient with
      | inl err => (Some err, t)
      | inr baseClient =>
          let c := NewCacheableClient (CacheTTL (tb_config t)) in
          (None,
           {| tb_config := tb_config t;
              tb_logger := tb_logger t;
              tb_client := Some {| cache := cache c; calls := calls c;
                                   logger := tb_logger t |} |})
      end
  end.

(** The loops of [processLogs] when a statement of the body can panic
    ([None]); the panic unwinds through the loops. *)
Fixpoint for_each_panic {A S : Type} (body : A → S → option (A * S))
    (xs : list A) (st : S) : option (list A * S) :=
  match xs with
  | [] => Some ([], st)
  | x :: xs =>
      match body x st with
      | None => None
      | Some (x', st) =>
          match for_each_panic body xs st with
          | None => None
          | Some (xs', st) => Some (x' :: xs', st)
          end
      end
  end.

(** The body of the innermost loop while [t.client] is nil: a record
    without a key is logged and skipped as usual; for a record with a key
    [t.client.Retrieve] runs with a nil receiver and panics on its first
    statement, [c.cache.Get]. *)
Definition processRecord_nil (logRecord : LogRecord) (lg : list LogEntry)
  : option (LogRecord * list LogEntry) :=
  match Extract logRecord with
  | inl err => Some (logRecord, lg ++ [extract_failed err])
  | inr _ => None
  end.

(** [processLogs] as a method of the processor: [None] is a panic. *)
Definition truthBeamProcessor_processLogs (rv : revision) (now : Z) (ld : Logs)
    (t : truthBeamProcessor) : option ((Logs * option error) * truthBeamProcessor) :=
  match tb_client t with
  | Some c =>
      let '(r, c) := processLogs rv now ld c in
      Some (r, {| tb_config := tb_config t; tb_logger := tb_logger t; tb_client := Some c |})
  | None =>
      match
        for_each_panic (fun rs lg =>
          match
            for_each_panic (fun ils lg =>
              match for_each_panic processRecord_nil (LogRecords ils) lg with
              | None => None
              | Some (logs, lg) => Some ({| LogRecords := logs |}, lg)
              end)
              (ScopeLogs_of rs) lg
          with
          | None => None
          | Some (ilss, lg) => Some ({| ScopeLogs_of := ilss |}, lg)
          end)
          ld (tb_logger t)
      with
      | None => None
      | Some (ld, lg) =>
          Some ((ld, None),
                {| tb_config := tb_config t; tb_logger := lg; tb_client := None |})
      end
  end.

(** * Properties *)

(** ** Errors *)

Lemma wraps_refl (e : error) : wraps e e.
Proof. destruct e; simpl; auto. Qed.

Lemma Unwrap_Errorf_w (prefix : string) (e : error) :
  Unwrap (Errorf_w prefix e) = Some e ∧ Error (Errorf_w prefix e) = prefix +:+ Error e.
Proof. done. Qed.

Lemma wraps_Errorf_w (prefix : string) (e target : error) :
  wraps e target → wraps (Errorf_w prefix e) target.
Proof. intros H. simpl. auto. Qed.

(** ** The store *)

Lemma cache_Get_unexpired (c : Cache) (now : Z) (k : string) (item : Item) :
  items c !! k = Some item → unexpired item now →
  cache_Get c now k = Some (Object item).
Proof.
  intros Hk Hu. unfold cache_Get. rewrite Hk.
  destruct Hu; repeat case_decide; auto; lia.
Qed.

Lemma cache_Get_Some (c : Cache) (now : Z) (k : string) (v : Compliance) :
  cache_Get c now k = Some v →
  ∃ item, items c !! k = Some item ∧ Object item = v ∧
          (Expiration item ≤ 0 ∨ now ≤ Expiration item).
Proof.
  unfold cache_Get. destruct (items c !! k) as [item|]; [|done].
  intros H. exists item. repeat case_decide; simplify_eq; split_and!; auto; lia.
Qed.

(** A miss stays a miss as long as nothing is stored: an expired entry does
    not come back. *)
Lemma cache_Get_None_later (c : Cache) (now now' : Z) (k : string) :
  cache_Get c now k = None → now ≤ now' → cache_Get c now' k = None.
Proof.
  unfold cache_Get. destruct (items c !! k) as [item|]; [|done].
  repeat case_decide; auto; try done; lia.
Qed.

Lemma cache_Get_Set_ne (c : Cache) (t now : Z) (k k' : string) (x : Compliance) (d : Z) :
  k ≠ k' → cache_Get (cache_Set c t k x d) now k' = cache_Get c now k'.
Proof. intros Hne. unfold cache_Get, cache_Set. simpl. by rewrite lookup_insert_ne. Qed.

Lemma cache_Get_Set_eq (c : Cache) (now : Z) (k : string) (x : Compliance) (d : Z) :
  cache_Get (cache_Set c now k x d) now k = Some x.
Proof.
  unfold cache_Get, cache_Set. simpl. rewrite lookup_insert_eq. simpl.
  repeat case_decide; auto; lia.
Qed.

(** The janitor only removes what [Get] no longer serves. *)
Lemma cache_Get_DeleteExpired (c : Cache) (t now : Z) (k : string) :
  t ≤ now → cache_Get (cache_DeleteExpired c t) now k = cache_Get c now k.
Proof.
  intros Ht. unfold cache_Get, cache_DeleteExpired. simpl.
  destruct (items c !! k) as [item|] eqn:Hk.
  - destruct (decide (Expiration item > 0 ∧ t > Expiration item)) as [[H1 H2]|Hn].
    + rewrite (map_lookup_filter_None_2 _ _ k).
      * repeat case_decide; auto; lia.
      * right. intros x Hx. simplify_eq. simpl. tauto.
    + rewrite (map_lookup_filter_Some_2 _ _ k item); auto.
  - rewrite (map_lookup_filter_None_2 _ _ k); auto.
Qed.

(** ** [Retrieve] without other goroutines *)

Lemma Retrieve_of_hit (rv : revision) (now : Z) (policy : Policy) (c : CacheableClient)
    (v : Compliance) :
  cache_Get (cache c) now (PolicyRuleId policy) = Some v →
  Retrieve_of rv now policy c = ((v, None), c).
Proof. intros H. destruct rv; simpl; unfold Retrieve, Retrieve_part000; by rewrite H. Qed.

(** What a miss does, in both revisions: one request, then either the error
    path of [fetch_failed] or the store of the result. *)
Lemma Retrieve_of_miss (rv : revision) (now : Z) (policy : Policy) (c : CacheableClient) :
  cache_Get (cache c) now (PolicyRuleId policy) = None →
  Retrieve_of rv now policy c =
    let req := {| req_Policy := policy |} in
    let c1 := send rv req c in
    match enrich_result_of rv (length (calls c)) req with
    | inl err => fetch_failed rv policy err c1
    | inr resp =>
        ((resp_Compliance resp, None),
         store now (PolicyRuleId policy) (resp_Compliance resp) c1)
    end.
Proof.
  intros H. destruct rv; simpl; unfold Retrieve, Retrieve_part000; rewrite H; simpl.
  - destruct (enrich_result _ _); reflexivity.
  - unfold fetchMetadata, callEnrich_part000; simpl.
    destruct (enrich_result_part000 _ _); reflexivity.
Qed.

Lemma calls_send (rv : revision) (req : EnrichmentRequest) (c : CacheableClient) :
  calls (send rv req c) = calls c ++ [req] ∧ cache (send rv req c) = cache c.
Proof. by destruct rv. Qed.

Lemma fetch_failed_spec (rv : revision) (policy : Policy) (err : error) (c : CacheableClient) :
  ∃ e c', fetch_failed rv policy err c = ((Compliance_zero, Some e), c') ∧
          cache c' = cache c ∧ calls c' = calls c ∧ wraps e err.
Proof.
  destruct rv; simpl; eexists _, _; split_and!; try reflexivity;
    repeat apply wraps_Errorf_w; apply wraps_refl.
Qed.

(** C3: for a key with an entry in the store that has not expired,
    [Retrieve] returns the cached value with a nil error and leaves the
    client as it was: no request is sent to the remote service (and nothing
    is logged or stored).  Both revisions. *)
Theorem Retrieve_cached_no_fetch (rv : revision) (now : Z) (policy : Policy)
    (c : CacheableClient) (item : Item) :
  items (cache c) !! PolicyRuleId policy = Some item →
  unexpired item now →
  fst (Retrieve_of rv now policy c) = (Object item, None) ∧
  calls (snd (Retrieve_of rv now policy c)) = calls c ∧
  snd (Retrieve_of rv now policy c) = c.
Proof.
  intros Hk Hu.
  rewrite (Retrieve_of_hit rv now policy c (Object item)); [done|].
  by apply cache_Get_unexpired.
Qed.

(** C4: when the fetch that [Retrieve] performs for a key fails, whatever
    the failure ([enrich_result_of] returns an error for a transport error,
    a structured remote error and an unexpected response alike), [Retrieve]
    returns an error, the cache is exactly what it was, and the key still
    has no entry that [Get] would serve, now or later.  Both revisions. *)
Theorem Retrieve_failure_not_cached (rv : revision) (now : Z) (policy : Policy)
    (c : CacheableClient) (err : error) :
  cache_Get (cache c) now (PolicyRuleId policy) = None →
  enrich_result_of rv (length (calls c)) {| req_Policy := policy |} = inl err →
  ∃ e c', Retrieve_of rv now policy c = ((Compliance_zero, Some e), c') ∧
          cache c' = cache c ∧
          ∀ now', now ≤ now' → cache_Get (cache c') now' (PolicyRuleId policy) = None.
Proof.
  intros Hmiss Herr. rewrite Retrieve_of_miss by done. simpl. rewrite Herr.
  destruct (fetch_failed_spec rv policy err (send rv {| req_Policy := policy |} c))
    as (e & c' & -> & Hc & _ & _).
  exists e, c'. split; [done|].
  rewrite Hc, (proj2 (calls_send _ _ _)). split; [done|].
  intros now' Hle. by apply cache_Get_None_later with now.
Qed.

(** The three kinds of failure all reach [Retrieve] as an error of
    [callEnrich] (cacheable.go). *)
Lemma enrich_result_failures (n : nat) (req : EnrichmentRequest) :
  (∀ err, PostV1Enrich n req = inl err → enrich_result n req = inl err) ∧
  (∀ resp err, PostV1Enrich n req = inr resp →
     ParsePostV1EnrichResponse resp = inl err → enrich_result n req = inl err) ∧
  (∀ resp parsedResp, PostV1Enrich n req = inr resp →
     ParsePostV1EnrichResponse resp = inr parsedResp →
     JSON200 parsedResp = None → ∃ err, enrich_result n req = inl err).
Proof.
  unfold enrich_result. split_and!.
  - by intros err ->.
  - by intros resp err -> ->.
  - intros resp parsedResp -> -> ->. destruct (JSONDefault parsedResp); eauto.
Qed.

(** C10: whenever [Retrieve] returns a non-nil error, the value returned
    with it is the zero value [Compliance{}].  Both revisions. *)
Theorem Retrieve_error_zero_value (rv : revision) (now : Z) (policy : Policy)
    (c c' : CacheableClient) (v : Compliance) (e : error) :
  Retrieve_of rv now policy c = ((v, Some e), c') → v = Compliance_zero.
Proof.
  destruct (cache_Get (cache c) now (PolicyRuleId policy)) as [v0|] eqn:Hget.
  - rewrite (Retrieve_of_hit rv now policy c v0) by done. congruence.
  - rewrite Retrieve_of_miss by done. simpl.
    destruct (enrich_result_of _ _ _) as [err|resp]; [|congruence].
    destruct (fetch_failed_spec rv policy err (send rv {| req_Policy := policy |} c))
      as (e' & c'' & -> & _). congruence.
Qed.

(** C9 (amended): when the fetch fails with [err], the error [Retrieve]
    returns wraps [err] under a fixed prefix and is the same for every
    policy: it does not carry the key.  cacheable.go writes the rule
    identifier and the engine name to the error entry of the log instead. *)
Theorem Retrieve_error_wraps_fetch_error (rv : revision) (now : Z) (policy : Policy)
    (c : CacheableClient) (err : error) :
  cache_Get (cache c) now (PolicyRuleId policy) = None →
  enrich_result_of rv (length (calls c)) {| req_Policy := policy |} = inl err →
  ∃ e, snd (fst (Retrieve_of rv now policy c)) = Some e ∧
       wraps e err ∧
       match rv with
       | Cacheable =>
           e = Errorf_w "failed to fetch metadata: " err ∧
           last (logger (snd (Retrieve_of rv now policy c))) = Some (Retrieve_failed policy err)
       | Part000 =>
           e = Errorf_w "failed to fetch metadata: "
                 (Errorf_w "failed to call metadata API: " err)
       end.
Proof.
  intros Hmiss Herr. rewrite Retrieve_of_miss by done. simpl. rewrite Herr.
  destruct rv; simpl; eexists; split_and!; try reflexivity;
    repeat apply wraps_Errorf_w; try apply wraps_refl.
  by rewrite last_snoc.
Qed.

(** The structured error and the unexpected-response error are never the
    same error. *)
Lemma api_error_distinct (e : ApiError) (resp : HttpResponse) :
  api_error e ≠ unexpected_response resp.
Proof. unfold api_error, unexpected_response. intros H. discriminate H. Qed.

(** cacheable.go: the three outcomes of a round trip whose response was
    parsed: the success body is returned as it is; a structured error body
    becomes an error whose message holds the remote code and message; any
    other parsed response is the unexpected-response error with the HTTP
    status line; the last two errors differ. *)
Lemma callEnrich_maps_outcomes (req : EnrichmentRequest) (c : CacheableClient)
    (resp : HttpResponse) (parsedResp : PostV1EnrichResponse) :
  PostV1Enrich (length (calls c)) req = inr resp →
  ParsePostV1EnrichResponse resp = inr parsedResp →
  match JSON200 parsedResp, JSONDefault parsedResp with
  | Some r, _ => fst (callEnrich req c) = inr r
  | None, Some e =>
      fst (callEnrich req c) = inl (api_error e) ∧
      Error (api_error e) =
        "API call failed with status " +:+ pretty (Code e) +:+ ": " +:+ Message e ∧
      api_error e ≠ unexpected_response resp
  | None, None =>
      fst (callEnrich req c) = inl (unexpected_response resp) ∧
      Error (unexpected_response resp) = "unexpected response status: " +:+ Status resp
  end.
Proof.
  intros Hpost Hparse. unfold callEnrich, enrich_result. simpl.
  rewrite Hpost, Hparse.
  destruct (JSON200 parsedResp), (JSONDefault parsedResp); split_and?;
    first [reflexivity | apply api_error_distinct].
Qed.

(** part_000: a structured error body is not looked at; without a success
    body the answer is the unexpected-response error. *)
Lemma callEnrich_part000_outcomes (req : EnrichmentRequest) (c : CacheableClient)
    (resp : HttpResponse) (parsedResp : PostV1EnrichResponse) :
  PostV1Enrich (length (calls c)) req = inr resp →
  ParsePostV1EnrichResponse resp = inr parsedResp →
  fst (callEnrich_part000 req c) =
    match JSON200 parsedResp with
    | Some r => inr r
    | None => inl (unexpected_response resp)
    end.
Proof.
  intros Hpost Hparse. unfold callEnrich_part000, enrich_result_part000. simpl.
  rewrite Hpost, Hparse. by destruct (JSON200 parsedResp).
Qed.

(** ** The cache key and the TTL *)

(** The three ways a call of [Retrieve] can go. *)
Lemma Retrieve_of_cases (rv : revision) (now : Z) (policy : Policy) (c : CacheableClient) :
  let k := PolicyRuleId policy in
  let req := {| req_Policy := policy |} in
  (∃ v, cache_Get (cache c) now k = Some v ∧
        Retrieve_of rv now policy c = ((v, None), c)) ∨
  (cache_Get (cache c) now k = None ∧
   ∃ err e c', enrich_result_of rv (length (calls c)) req = inl err ∧
               Retrieve_of rv now policy c = ((Compliance_zero, Some e), c') ∧
               cache c' = cache c ∧ calls c' = calls c ++ [req]) ∨
  (cache_Get (cache c) now k = None ∧
   ∃ resp c', enrich_result_of rv (length (calls c)) req = inr resp ∧
              Retrieve_of rv now policy c = ((resp_Compliance resp, None), c') ∧
              cache c' = cache_Set (cache c) now k (resp_Compliance resp) DefaultExpiration ∧
              calls c' = calls c ++ [req]).
Proof.
  intros k req.
  destruct (cache_Get (cache c) now k) as [v|] eqn:Hget.
  - left. exists v. split; [done|]. by apply Retrieve_of_hit.
  - right. rewrite Retrieve_of_miss by done. simpl. fold req.
    destruct (calls_send rv req c) as [Hcalls Hcache].
    destruct (enrich_result_of rv (length (calls c)) req) as [err|resp].
    + left. split; [done|].
      destruct (fetch_failed_spec rv policy err (send rv req c))
        as (e & c' & -> & Hc & Hl & _).
      exists err, e, c'. split_and!; try done; congruence.
    + right. split; [done|]. eexists resp, _. split_and!; try done.
      simpl. by rewrite Hcache.
Qed.

Lemma Retrieve_of_defaultExpiration (rv : revision) (now : Z) (policy : Policy)
    (c : CacheableClient) :
  defaultExpiration (cache (snd (Retrieve_of rv now policy c))) = defaultExpiration (cache c).
Proof.
  destruct (Retrieve_of_cases rv now policy c)
    as [(v & _ & ->)|[(_ & err & e & c' & _ & -> & Hc & _)|(_ & resp & c' & _ & -> & Hc & _)]];
    simpl; try rewrite Hc; done.
Qed.

Lemma Retrieve_all_defaultExpiration (rv : revision) (h : list (Z * Policy))
    (c : CacheableClient) :
  defaultExpiration (cache (Retrieve_all rv h c)) = defaultExpiration (cache c).
Proof.
  revert c. induction h as [|[now policy] h IH]; intros c; simpl; [done|].
  by rewrite IH, Retrieve_of_defaultExpiration.
Qed.

(** A call that returns without error leaves the value it returns in the
    store, served at the instant of the call. *)
Lemma Retrieve_of_success_cached (rv : revision) (now : Z) (policy : Policy)
    (c c1 : CacheableClient) (v : Compliance) :
  Retrieve_of rv now policy c = ((v, None), c1) →
  cache_Get (cache c1) now (PolicyRuleId policy) = Some v.
Proof.
  intros HR.
  destruct (Retrieve_of_cases rv now policy c)
    as [(v' & Hget & HR')|[(_ & err & e & c' & _ & HR' & _)|(_ & resp & c' & _ & HR' & Hc & _)]];
    rewrite HR in HR'; simplify_eq.
  - done.
  - rewrite Hc. apply cache_Get_Set_eq.
Qed.

(** C6 (amended): the cache key is the policy-rule identifier alone.  A
    call for one rule identifier leaves what the store serves for every
    other rule identifier untouched; two policies with the same rule
    identifier share one entry whatever their engine names, so after a call
    for the first has returned a value, a call for the second returns that
    value from the cache.  Both revisions. *)
Theorem Retrieve_key_is_rule_id (rv : revision) (now now' : Z) (p1 p2 : Policy)
    (c : CacheableClient) :
  (PolicyRuleId p1 ≠ PolicyRuleId p2 →
   cache_Get (cache (snd (Retrieve_of rv now p1 c))) now' (PolicyRuleId p2)
   = cache_Get (cache c) now' (PolicyRuleId p2)) ∧
  (PolicyRuleId p1 = PolicyRuleId p2 →
   ∀ v c1, Retrieve_of rv now p1 c = ((v, None), c1) →
           Retrieve_of rv now p2 c1 = ((v, None), c1)).
Proof.
  split.
  - intros Hne.
    destruct (Retrieve_of_cases rv now p1 c)
      as [(v & _ & ->)|[(_ & err & e & c' & _ & -> & Hc & _)|(_ & resp & c' & _ & -> & Hc & _)]];
      simpl; try rewrite Hc; try done.
    by apply cache_Get_Set_ne.
  - intros Heq v c1 HR. apply Retrieve_of_hit. rewrite <- Heq.
    exact (Retrieve_of_success_cached rv now p1 c c1 v HR).
Qed.

Lemma permanent_Retrieve_of (rv : revision) (now : Z) (policy : Policy) (c : CacheableClient) :
  permanent c →
  permanent (snd (Retrieve_of rv now policy c)) ∧
  ∀ k item, items (cache c) !! k = Some item →
            items (cache (snd (Retrieve_of rv now policy c))) !! k = Some item.
Proof.
  intros [Hde Hperm].
  destruct (Retrieve_of_cases rv now policy c)
    as [(v & _ & ->)|[(_ & err & e & c' & _ & -> & Hc & _)|(Hmiss & resp & c' & _ & -> & Hc & _)]];
    simpl.
  - done.
  - unfold permanent. rewrite Hc. done.
  - assert (items (cache c) !! PolicyRuleId policy = None) as Hnone.
    { destruct (items (cache c) !! PolicyRuleId policy) as [item|] eqn:Hk; [|done].
      rewrite (cache_Get_unexpired _ now _ item) in Hmiss; [done|done|].
      left. by rewrite (Hperm _ _ Hk). }
    unfold permanent. rewrite Hc. simpl. split; [split; [done|]|].
    + intros k item. destruct (decide (PolicyRuleId policy = k)) as [<-|Hne].
      * rewrite lookup_insert_eq. intros [= <-]. simpl.
        unfold DefaultExpiration. repeat case_decide; auto; lia.
      * rewrite lookup_insert_ne by done. apply Hperm.
    + intros k item Hk. rewrite lookup_insert_ne; [done|]. congruence.
Qed.

Lemma permanent_Retrieve_all (rv : revision) (h : list (Z * Policy)) (c : CacheableClient) :
  permanent c →
  permanent (Retrieve_all rv h c) ∧
  ∀ k item, items (cache c) !! k = Some item →
            items (cache (Retrieve_all rv h c)) !! k = Some item.
Proof.
  revert c. induction h as [|[now policy] h IH]; intros c Hp; simpl; [done|].
  destruct (permanent_Retrieve_of rv now policy c Hp) as [Hp' Hkeep].
  destruct (IH _ Hp') as [Hp'' Hkeep']. split; [done|]. auto.
Qed.

Lemma permanent_New : permanent (NewCacheableClient NoExpiration).
Proof.
  split; simpl.
  - unfold NoExpiration. try case_decide; lia.
  - intros k item. by rewrite lookup_empty.
Qed.

(** C8: results are stored with the TTL the client was constructed with.
    After any history of calls on a new client, let a call for a policy
    return a value without error.  If the client was constructed with the
    never-expire TTL, every later call for that policy, after any further
    calls and at any instant, returns that value from the cache and sends
    no request.  If it was constructed with a positive TTL and the call was
    a fetch made at the instant [t0] of the Unix clock, a call made after
    [t0 + ttl] sends exactly one new request, while a call made no later
    than [t0 + ttl] is served from the cache.  Both revisions. *)
Theorem Retrieve_respects_ttl (rv : revision) (ttl : Z) (h1 : list (Z * Policy)) (t0 : Z)
    (policy : Policy) (v : Compliance) (c1 : CacheableClient) :
  let c := Retrieve_all rv h1 (NewCacheableClient ttl) in
  Retrieve_of rv t0 policy c = ((v, None), c1) →
  (ttl = NoExpiration →
   ∀ h2 t1, let c3 := Retrieve_all rv h2 c1 in
            Retrieve_of rv t1 policy c3 = ((v, None), c3)) ∧
  (0 < ttl → 0 ≤ t0 → cache_Get (cache c) t0 (PolicyRuleId policy) = None →
   (∀ t1, t0 + ttl < t1 →
          calls (snd (Retrieve_of rv t1 policy c1)) = calls c1 ++ [{| req_Policy := policy |}]) ∧
   (∀ t1, t1 ≤ t0 + ttl → Retrieve_of rv t1 policy c1 = ((v, None), c1))).
Proof.
  intros c HR. split.
  - intros -> h2 t1 c3.
    assert (permanent c) as Hp by apply permanent_Retrieve_all, permanent_New.
    destruct (permanent_Retrieve_of rv t0 policy c Hp) as [Hp1 _].
    rewrite HR in Hp1. simpl in Hp1.
    destruct (cache_Get_Some _ _ _ _ (Retrieve_of_success_cached _ _ _ _ _ _ HR))
      as (item & Hk & <- & _).
    destruct (permanent_Retrieve_all rv h2 c1 Hp1) as [Hp3 Hkeep].
    apply Retrieve_of_hit, cache_Get_unexpired; [by apply Hkeep|].
    left. by rewrite (proj2 Hp1 _ _ Hk).
  - intros Hpos Ht0 Hmiss.
    assert (defaultExpiration (cache c) = ttl) as Hde.
    { unfold c. rewrite Retrieve_all_defaultExpiration. simpl. case_decide; lia. }
    destruct (Retrieve_of_cases rv t0 policy c)
      as [(v' & Hget & _)|[(_ & err & e & c' & _ & HR' & _)|(_ & resp & c' & _ & HR' & Hc & _)]];
      [congruence| |]; rewrite HR in HR'; simplify_eq.
    assert (items (cache c') !! PolicyRuleId policy
            = Some {| Object := resp_Compliance resp; Expiration := t0 + ttl |}) as Hitem.
    { rewrite Hc. simpl. rewrite lookup_insert_eq. rewrite Hde.
      unfold DefaultExpiration. repeat case_decide; try done; lia. }
    split.
    + intros t1 Ht1.
      destruct (Retrieve_of_cases rv t1 policy c')
        as [(v' & Hget & _)|[(_ & err & e & c2 & _ & -> & _ & Hl)|(_ & r & c2 & _ & -> & _ & Hl)]];
        try done.
      unfold cache_Get in Hget. rewrite Hitem in Hget. simpl in Hget.
      repeat case_decide; try done; lia.
    + intros t1 Ht1. apply Retrieve_of_hit.
      rewrite (cache_Get_unexpired _ t1 _ _ Hitem); [done|]. right. simpl. lia.
Qed.

(** ** [processLogs] *)

Lemma for_each_app {A : Type} (body : A → CacheableClient → A * CacheableClient)
    (xs ys : list A) (c : CacheableClient) :
  for_each body (xs ++ ys) c =
    (fst (for_each body xs c) ++ fst (for_each body ys (snd (for_each body xs c))),
     snd (for_each body ys (snd (for_each body xs c)))).
Proof.
  revert c. induction xs as [|x xs IH]; intros c; simpl.
  - by destruct (for_each body ys c).
  - destruct (body x c) as [x' c1]. rewrite IH.
    by destruct (for_each body xs c1) as [xs' c2].
Qed.

Lemma for_each_cons {A : Type} (body : A → CacheableClient → A * CacheableClient)
    (x : A) (xs : list A) (c : CacheableClient) :
  for_each body (x :: xs) c =
    (fst (body x c) :: fst (for_each body xs (snd (body x c))),
     snd (for_each body xs (snd (body x c)))).
Proof.
  simpl. destruct (body x c) as [x' c1]. simpl.
  by destruct (for_each body xs c1).
Qed.

Lemma for_each_length {A : Type} (body : A → CacheableClient → A * CacheableClient)
    (xs : list A) (c : CacheableClient) :
  length (fst (for_each body xs c)) = length xs.
Proof.
  revert c. induction xs as [|x xs IH]; intros c; simpl; [done|].
  destruct (body x c) as [x' c1]. specialize (IH c1).
  destruct (for_each body xs c1) as [xs' c2]. simpl in *. by rewrite IH.
Qed.

(** The loop over the scopes of one resource is the loop over their records
    laid end to end. *)
Lemma for_each_scopes (rv : revision) (now : Z) (ilss : list ScopeLogs) (c : CacheableClient) :
  let scope := fun (ils : ScopeLogs) (c : CacheableClient) =>
    let '(logs, c) := for_each (processRecord rv now) (LogRecords ils) c in
    ({| LogRecords := logs |}, c) in
  concat (map LogRecords (fst (for_each scope ilss c)))
  = fst (for_each (processRecord rv now) (concat (map LogRecords ilss)) c) ∧
  snd (for_each scope ilss c)
  = snd (for_each (processRecord rv now) (concat (map LogRecords ilss)) c).
Proof.
  intros scope. revert c. induction ilss as [|ils ilss IH]; intros c; simpl; [done|].
  rewrite for_each_app. simpl.
  unfold scope at 1 3.
  destruct (for_each (processRecord rv now) (LogRecords ils) c) as [logs c1]. simpl.
  destruct (IH c1) as [IH1 IH2].
  destruct (for_each scope ilss c1) as [ilss' c2]. simpl in *.
  by rewrite IH1, IH2.
Qed.

(** [processLogs] handles the records of the batch one after the other, in
    the order of the batch. *)
Lemma processLogs_records (rv : revision) (now : Z) (ld : Logs) (c : CacheableClient) :
  records (fst (fst (processLogs rv now ld c)))
  = fst (for_each (processRecord rv now) (records ld) c) ∧
  snd (processLogs rv now ld c) = snd (for_each (processRecord rv now) (records ld) c).
Proof.
  unfold processLogs.
  match goal with |- context [for_each ?f ld c] => set (resource := f) end.
  assert (∀ ld c,
    records (fst (for_each resource ld c))
    = fst (for_each (processRecord rv now) (records ld) c) ∧
    snd (for_each resource ld c)
    = snd (for_each (processRecord rv now) (records ld) c)) as H.
  { clear ld c. induction ld as [|rs ld IH]; intros c; [done|].
    unfold records in *. simpl. rewrite for_each_app. simpl.
    unfold resource at 1 3.
    destruct (for_each_scopes rv now (ScopeLogs_of rs) c) as [H1 H2]. simpl in H1, H2.
    destruct (for_each _ (ScopeLogs_of rs) c) as [ilss c1]. simpl in *.
    destruct (IH c1) as [IH1 IH2].
    destruct (for_each resource ld c1) as [ld' c2]. simpl in *.
    by rewrite <- H1, <- H2, <- IH1, <- IH2. }
  specialize (H ld c). destruct (for_each resource ld c) as [ld' c']. done.
Qed.

(** No record is added to the batch or dropped from it. *)
Lemma processLogs_length (rv : revision) (now : Z) (ld : Logs) (c : CacheableClient) :
  length (records (fst (fst (processLogs rv now ld c)))) = length (records ld).
Proof. rewrite (proj1 (processLogs_records rv now ld c)). apply for_each_length. Qed.

(** A record that is not enriched is handed back as it came, and the cache
    is what it was. *)
Lemma processRecord_fails (rv : revision) (now : Z) (logRecord : LogRecord)
    (c : CacheableClient) :
  fails rv now logRecord c →
  fst (processRecord rv now logRecord c) = logRecord ∧
  cache (snd (processRecord rv now logRecord c)) = cache c.
Proof.
  unfold fails, processRecord.
  destruct (Extract logRecord) as [err|[policy status]]; [done|].
  destruct (Retrieve_of_cases rv now policy c)
    as [(v & _ & ->)|[(_ & err & e & c' & _ & -> & Hc & _)|(_ & resp & c' & _ & -> & _)]];
    simpl; intros [x Hx]; by simplify_eq.
Qed.

(** C7: [processLogs] returns a nil error for every batch and every state
    of the client; it handles the records one after the other in the order
    of the batch; and a record whose key extraction or whose [Retrieve]
    fails comes out as it went in, the cache is not changed by it, and the
    records after it are processed as usual, starting from the client as
    the failed record has left it.  Both revisions of the client. *)
Theorem processLogs_continue_on_error (rv : revision) (now : Z) :
  (∀ ld c, snd (fst (processLogs rv now ld c)) = None) ∧
  (∀ ld c,
     records (fst (fst (processLogs rv now ld c)))
     = fst (for_each (processRecord rv now) (records ld) c) ∧
     snd (processLogs rv now ld c) = snd (for_each (processRecord rv now) (records ld) c)) ∧
  (∀ before logRecord after c,
     let c1 := snd (for_each (processRecord rv now) before c) in
     let c2 := snd (processRecord rv now logRecord c1) in
     fails rv now logRecord c1 →
     for_each (processRecord rv now) (before ++ logRecord :: after) c
     = (fst (for_each (processRecord rv now) before c)
          ++ logRecord :: fst (for_each (processRecord rv now) after c2),
        snd (for_each (processRecord rv now) after c2)) ∧
     cache c2 = cache c1).
Proof.
  split_and!.
  - intros ld c. unfold processLogs. by destruct (for_each _ ld c).
  - apply processLogs_records.
  - intros before logRecord after c c1 c2 Hfails.
    destruct (processRecord_fails rv now logRecord c1 Hfails) as [Hrec Hcache].
    split; [|done].
    rewrite for_each_app, for_each_cons. fold c1. fold c2. by rewrite Hrec.
Qed.

(** ** Concurrent callers *)

Lemma lookup_with_pc (i j : nat) (p : pc) (l : list Goroutine) (g : Goroutine) :
  alter (with_pc p) i l !! j = Some g →
  (i = j ∧ g_pc g = p ∧ ∃ g0, l !! j = Some g0 ∧ g_policy g = g_policy g0) ∨
  (i ≠ j ∧ l !! j = Some g).
Proof.
  destruct (decide (i = j)) as [->|Hne].
  - rewrite list_lookup_alter_eq.
    destruct (l !! j) as [g0|]; simpl; [|done].
    intros [= <-]. left. eauto.
  - rewrite list_lookup_alter_ne by done. auto.
Qed.

Lemma lookup_set_pc_Some (i j : nat) (p : pc) (s : System) (g : Goroutine) :
  sys_threads (set_pc i p s) !! j = Some g →
  (i = j ∧ g_pc g = p ∧ ∃ g0, sys_threads s !! j = Some g0 ∧ g_policy g = g_policy g0) ∨
  (i ≠ j ∧ sys_threads s !! j = Some g).
Proof. apply lookup_with_pc. Qed.

(** The clock never runs backwards. *)
Lemma step_now_mono (rv : revision) (ev : event) (s s' : System) :
  step rv ev s = Some s' → sys_now s ≤ sys_now s'.
Proof.
  destruct ev as [i|d|]; simpl.
  - unfold step_thread. intros H.
    repeat (match type of H with
            | context [match ?x with _ => _ end] => destruct x eqn:?
            end; simplify_eq; simpl; try lia).
  - case_decide; intros; simplify_eq; simpl; lia.
  - case_decide; intros; simplify_eq; simpl; lia.
Qed.

Lemma run_now_mono (rv : revision) (evs : list event) (s s' : System) :
  run rv evs s = Some s' → sys_now s ≤ sys_now s'.
Proof.
  revert s. induction evs as [|ev evs IH]; intros s; simpl.
  - intros [= ->]. lia.
  - destruct (step rv ev s) as [s1|] eqn:Hstep; [|done].
    intros H. apply step_now_mono in Hstep. apply IH in H. lia.
Qed.

(** Every step keeps the lock discipline, in both revisions. *)
Lemma step_mutex_inv (rv : revision) (ev : event) (s s' : System) :
  mutex_inv s → step rv ev s = Some s' → mutex_inv s'.
Proof.
  intros Hinv. destruct ev as [i|d|]; simpl.
  - unfold step_thread.
    destruct (sys_threads s !! i) as [g|] eqn:Hi; [|done].
    assert (∀ p, holds_lock (g_pc g) = true → holds_lock p = true →
                 mutex_inv (set_pc i p s)) as Hkeep.
    { intros p Hg Hp j gj Hj Hl. destruct (lookup_set_pc_Some _ _ _ _ _ Hj)
        as [(-> & _ & _)|(Hne & Hj')]; simpl; eauto. }
    assert (∀ p, holds_lock p = false → mutex_inv (set_pc i p s)) as Hout.
    { intros p Hp j gj Hj Hl. destruct (lookup_set_pc_Some _ _ _ _ _ Hj)
        as [(-> & Hpc & _)|(Hne & Hj')]; simpl; [congruence|eauto]. }
    destruct (g_pc g) eqn:Hpc.
    + destruct (cache_Get _ _ _); intros [= <-]; by apply Hout.
    + destruct (sys_mu s) as [h|] eqn:Hmu; [done|]. intros [= <-].
      intros j gj Hj Hl. simpl in *.
      destruct (lookup_set_pc_Some _ _ _ _ _ Hj) as [(-> & _ & _)|(Hne & Hj')]; [done|].
      specialize (Hinv j gj Hj' Hl). congruence.
    + destruct (cache_Get _ _ _); intros [= <-]; apply Hkeep; by rewrite ?Hpc.
    + intros [= <-]. apply (Hkeep (InFlight _)); by rewrite ?Hpc.
    + destruct (enrich_result_of _ _ _).
      * destruct (fetch_failed _ _ _ _) as [ret c']. intros [= <-].
        apply (Hkeep (AtUnlock _)); by rewrite ?Hpc.
      * intros [= <-]. apply (Hkeep (AtSet _)); by rewrite ?Hpc.
    + intros [= <-]. apply (Hkeep (AtUnlock _)); by rewrite ?Hpc.
    + intros [= <-]. intros j gj Hj Hl. simpl in *.
      destruct (lookup_set_pc_Some _ _ _ _ _ Hj) as [(-> & Hp & _)|(Hne & Hj')].
      * by rewrite Hp in Hl.
      * pose proof (Hinv j gj Hj' Hl) as Hmj.
        pose proof (Hinv i g Hi) as Hmi. rewrite Hpc in Hmi.
        specialize (Hmi eq_refl). congruence.
    + done.
  - case_decide; [|done]. intros [= <-]. exact Hinv.
  - case_decide; [|done]. intros [= <-]. exact Hinv.
Qed.

Lemma run_mutex_inv (rv : revision) (evs : list event) (s s' : System) :
  mutex_inv s → run rv evs s = Some s' → mutex_inv s'.
Proof.
  revert s. induction evs as [|ev evs IH]; intros s Hinv; simpl.
  - by intros [= <-].
  - destruct (step rv ev s) as [s1|] eqn:Hstep; [|done].
    apply IH. by eapply step_mutex_inv.
Qed.

Lemma lookup_spawn (policies : list Policy) (i : nat) (g : Goroutine) :
  spawn policies !! i = Some g → g_pc g = AtFastGet ∧ policies !! i = Some (g_policy g).
Proof.
  unfold spawn. change (map ?f ?l) with (f <$> l). rewrite list_lookup_fmap.
  destruct (policies !! i) as [p|]; simpl; [|done]. by intros [= <-].
Qed.

Lemma start_mutex_inv (c : CacheableClient) (now : Z) (policies : list Policy) :
  mutex_inv (start c now policies).
Proof.
  intros i g Hi Hl. simpl in Hi. apply lookup_spawn in Hi as [Hpc _].
  by rewrite Hpc in Hl.
Qed.

Lemma filter_at_most_one {A : Type} (P : A → Prop) `{∀ x, Decision (P x)} (l : list A) :
  (∀ i j x y, l !! i = Some x → l !! j = Some y → P x → P y → i = j) →
  (length (filter P l) ≤ 1)%nat.
Proof.
  induction l as [|x l IH]; intros Huniq; [simpl; lia|].
  rewrite filter_cons. case_decide as Hx.
  - assert (filter P l = []) as ->; [|simpl; lia].
    destruct (filter P l) as [|y l'] eqn:Hf; [done|].
    assert (y ∈ filter P l) as Hy by (rewrite Hf; left).
    apply list_elem_of_filter in Hy as [Hy Hin].
    apply list_elem_of_lookup in Hin as [j Hj].
    specialize (Huniq 0%nat (S j) x y eq_refl Hj Hx Hy). lia.
  - apply IH. intros i j a b Hi Hj Ha Hb.
    specialize (Huniq (S i) (S j) a b Hi Hj Ha Hb). lia.
Qed.

(** In both revisions the request is sent and answered inside the critical
    section, so two fetches are never in flight together. *)
Lemma mutex_inv_in_flight (s : System) :
  mutex_inv s → (fetches_in_flight s ≤ 1)%nat.
Proof.
  intros Hinv. apply filter_at_most_one.
  intros i j gi gj Hi Hj Hfi Hfj.
  assert (∀ g, in_flight g = true → holds_lock (g_pc g) = true) as Hh.
  { intros g. unfold in_flight. by destruct (g_pc g). }
  pose proof (Hinv i gi Hi (Hh _ Hfi)). pose proof (Hinv j gj Hj (Hh _ Hfj)).
  congruence.
Qed.

Lemma fetches_for_calls (k : string) (c c' : CacheableClient) :
  calls c' = calls c → fetches_for k c' = fetches_for k c.
Proof. unfold fetches_for. by intros ->. Qed.

Lemma fetches_for_send (rv : revision) (k : string) (req : EnrichmentRequest)
    (c : CacheableClient) :
  fetches_for k (send rv req c) =
    if decide (PolicyRuleId (req_Policy req) = k)
    then S (fetches_for k c) else fetches_for k c.
Proof.
  unfold fetches_for. rewrite (proj1 (calls_send rv req c)), filter_app, length_app.
  rewrite filter_cons, filter_nil. repeat case_decide; simpl; try done; lia.
Qed.

(** *** Deduplication in cacheable.go *)

Section Dedup.

(** The key under consideration, the instant the callers start at, the TTL
    of the cache and the number of requests for the key sent before. *)
Variables (K : string) (t0 de0 : Z) (n0 : nat).

(** The remote service answers every request for the key with a success
    body. *)
Hypothesis fetch_ok : ∀ n p, PolicyRuleId p = K →
  ∃ resp, enrich_result n {| req_Policy := p |} = inr resp.

Lemma served_Get (c : Cache) (now : Z) (v : Compliance) :
  served K t0 de0 c v → de0 ≤ 0 ∨ now ≤ t0 + de0 → cache_Get c now K = Some v.
Proof.
  intros (item & Hk & <- & Hexp) Htime.
  apply cache_Get_unexpired; [done|]. unfold unexpired. lia.
Qed.

Lemma pcs_update (ph ph' : phase) (i : nat) (p : pc) (ts : list Goroutine) :
  (∀ j g, ts !! j = Some g → PolicyRuleId (g_policy g) = K → pc_ok ph j (g_pc g)) →
  (∀ g, ts !! i = Some g → PolicyRuleId (g_policy g) = K → pc_ok ph' i p) →
  (∀ j g, j ≠ i → ts !! j = Some g → PolicyRuleId (g_policy g) = K →
          pc_ok ph j (g_pc g) → pc_ok ph' j (g_pc g)) →
  ∀ j g, alter (with_pc p) i ts !! j = Some g → PolicyRuleId (g_policy g) = K →
         pc_ok ph' j (g_pc g).
Proof.
  intros Hold Hi Hothers j g Hj HK.
  destruct (lookup_with_pc _ _ _ _ _ Hj) as [(-> & -> & g0 & Hg0 & Hpol)|(Hne & Hj')].
  - apply (Hi g0 Hg0). congruence.
  - apply Hothers; auto.
Qed.

Lemma lookup_with_pc_keep (i j : nat) (p : pc) (ts : list Goroutine) (g : Goroutine) :
  ts !! j = Some g →
  ∃ g', alter (with_pc p) i ts !! j = Some g' ∧ g_policy g' = g_policy g.
Proof.
  intros Hj. destruct (decide (i = j)) as [->|Hne].
  - rewrite list_lookup_alter_eq, Hj. simpl. eauto.
  - rewrite list_lookup_alter_ne by done. eauto.
Qed.

Lemma phase_ok_threads (ph : phase) (c : CacheableClient) (now : Z) (i : nat) (p : pc)
    (ts : list Goroutine) :
  phase_ok K t0 de0 n0 ph c now ts → phase_ok K t0 de0 n0 ph c now (alter (with_pc p) i ts).
Proof.
  destruct ph; simpl; try done.
  intros (? & ? & g & Hg & HK). split_and!; try done.
  destruct (lookup_with_pc_keep i i0 p ts g Hg) as (g' & ? & Hpol).
  exists g'. split; [done|congruence].
Qed.

(** The phase only looks at the cache, at the clock and at the requests
    sent. *)
Lemma phase_ok_client (ph : phase) (c c' : CacheableClient) (now : Z) (ts : list Goroutine) :
  cache c' = cache c → fetches_for K c' = fetches_for K c →
  phase_ok K t0 de0 n0 ph c now ts → phase_ok K t0 de0 n0 ph c' now ts.
Proof. intros Hc Hl. destruct ph; simpl; rewrite Hc, Hl; done. Qed.

(** A goroutine working on another key leaves the phase alone when it
    stores its own result. *)
Lemma phase_ok_store_other (ph : phase) (c : CacheableClient) (now : Z) (k : string)
    (x : Compliance) (ts : list Goroutine) :
  k ≠ K → phase_ok K t0 de0 n0 ph c now ts → phase_ok K t0 de0 n0 ph (store now k x c) now ts.
Proof.
  intros Hne. unfold phase_ok, store. cbn [cache calls].
  destruct ph; rewrite ?cache_Get_Set_ne by done; try done.
  intros [(item & Hk & Hv & Hexp) Hn]. split; [|done].
  exists item. simpl. by rewrite lookup_insert_ne.
Qed.

(** While a request for [K] is out, its sender holds [mu]. *)
Lemma fetching_holds_mu (s : System) (i : nat) :
  mutex_inv s →
  (∀ j g, sys_threads s !! j = Some g → PolicyRuleId (g_policy g) = K →
          pc_ok (Fetching i) j (g_pc g)) →
  phase_ok K t0 de0 n0 (Fetching i) (sys_client s) (sys_now s) (sys_threads s) →
  sys_mu s = Some i.
Proof.
  intros Hmx Hpcs (_ & _ & g & Hg & HK).
  apply (Hmx i g Hg). specialize (Hpcs i g Hg HK).
  destruct (g_pc g); simpl in *; done.
Qed.

Lemma served_store (c : CacheableClient) (now : Z) (x : Compliance) :
  defaultExpiration (cache c) = de0 → t0 ≤ now →
  served K t0 de0 (cache (store now K x c)) x.
Proof.
  intros Hde Ht. eexists. simpl. rewrite lookup_insert_eq. split; [done|].
  split; [done|]. simpl. rewrite Hde. unfold DefaultExpiration.
  repeat case_decide; try done; lia.
Qed.

Lemma served_DeleteExpired (c : Cache) (now : Z) (v : Compliance) :
  served K t0 de0 c v → de0 ≤ 0 ∨ now ≤ t0 + de0 → served K t0 de0 (cache_DeleteExpired c now) v.
Proof.
  intros (item & Hk & Hv & Hexp) Htime. exists item. split; [|done]. simpl.
  apply map_lookup_filter_Some_2; [done|]. simpl. lia.
Qed.

Ltac step_eq H := first [discriminate H | injection H as <-].

Lemma step_dedup_inv (ev : event) (s s' : System) :
  dedup_inv K t0 de0 n0 s → in_time t0 de0 s → step Cacheable ev s = Some s' → dedup_inv K t0 de0 n0 s'.
Proof.
  intros Hinv Htime Hstep.
  assert (mutex_inv s') as Hmx' by (eapply step_mutex_inv; [apply Hinv|done]).
  assert (t0 ≤ sys_now s') as Ht'.
  { apply step_now_mono in Hstep. destruct Hinv as (_ & _ & ? & _). lia. }
  destruct Hinv as (Hmx & Hde & Ht & ph & Hpcs & Hph).
  destruct ev as [i|d|]; simpl in Hstep.
  - unfold step_thread in Hstep.
    destruct (sys_threads s !! i) as [g|] eqn:Hi; [|done].
    destruct (decide (PolicyRuleId (g_policy g) = K)) as [HK|HnK].
    + (* a caller for K *)
      pose proof (Hpcs i g Hi HK) as Hok. rewrite HK in Hstep.
      assert (∀ p, pc_ok ph i p →
                ∀ j gj, alter (with_pc p) i (sys_threads s) !! j = Some gj →
                        PolicyRuleId (g_policy gj) = K → pc_ok ph j (g_pc gj)) as Hsame.
      { intros p Hp. apply pcs_update with ph; auto. }
      destruct (g_pc g) eqn:Hpc; destruct ph as [|i'|v]; simpl in Hok; try done.
      * destruct Hph as [Hget Hn]. rewrite Hget in Hstep. step_eq Hstep.
        split_and!; [done..|]. exists Unfetched.
        split; [by apply Hsame|]. by apply phase_ok_threads.
      * destruct Hph as (Hget & Hn & Hex). rewrite Hget in Hstep. step_eq Hstep.
        split_and!; [done..|]. exists (Fetching i').
        split; [by apply Hsame|]. by apply phase_ok_threads.
      * destruct Hph as [Hsv Hn].
        rewrite (served_Get _ _ _ Hsv Htime) in Hstep. step_eq Hstep.
        split_and!; [done..|]. exists (Fetched v).
        split; [by apply Hsame|]. by apply (phase_ok_threads (Fetched v)).
      * destruct (sys_mu s); step_eq Hstep.
        split_and!; [done..|]. exists Unfetched.
        split; [by apply Hsame|]. by apply phase_ok_threads.
      * rewrite (fetching_holds_mu s i' Hmx Hpcs Hph) in Hstep. done.
      * destruct (sys_mu s); step_eq Hstep.
        split_and!; [done..|]. exists (Fetched v).
        split; [by apply Hsame|]. by apply (phase_ok_threads (Fetched v)).
      * destruct Hph as [Hget Hn]. rewrite Hget in Hstep. step_eq Hstep.
        split_and!; [done..|]. exists Unfetched.
        split; [by apply Hsame|]. by apply phase_ok_threads.
      * destruct Hph as [Hsv Hn].
        rewrite (served_Get _ _ _ Hsv Htime) in Hstep. step_eq Hstep.
        split_and!; [done..|]. exists (Fetched v).
        split; [by apply Hsame|]. by apply (phase_ok_threads (Fetched v)).
      * (* the request for K is sent *)
        destruct Hph as [Hget Hn]. step_eq Hstep.
        split_and!; [done..|]. exists (Fetching i). split.
        -- apply pcs_update with Unfetched; [done|done|].
           intros j gj Hne Hj HKj Hokj.
           destruct (g_pc gj) eqn:Hpcj; simpl in *; try done.
           ++ pose proof (Hmx j gj Hj) as Hmj. rewrite Hpcj in Hmj.
              pose proof (Hmx i g Hi) as Hmi. rewrite Hpc in Hmi.
              specialize (Hmj eq_refl). specialize (Hmi eq_refl). congruence.
           ++ pose proof (Hmx j gj Hj) as Hmj. rewrite Hpcj in Hmj.
              pose proof (Hmx i g Hi) as Hmi. rewrite Hpc in Hmi.
              specialize (Hmj eq_refl). specialize (Hmi eq_refl). congruence.
        -- split; [done|]. split.
           ++ etrans; [exact (fetches_for_send Cacheable K
                                {| req_Policy := g_policy g |} (sys_client s))|].
              simpl. case_decide; [|done]. by rewrite Hn.
           ++ destruct (lookup_with_pc_keep i i (InFlight (length (calls (sys_client s))))
                          (sys_threads s) g Hi) as (g' & Hg' & Hpol).
              exists g'. split; [done|congruence].
      * (* the response for K arrives *)
        subst i'. destruct (fetch_ok n (g_policy g) HK) as [resp Hresp].
        simpl in Hstep. rewrite Hresp in Hstep. step_eq Hstep.
        split_and!; [done..|]. exists (Fetching i).
        split; [by apply Hsame|]. by apply (phase_ok_threads (Fetching i)).
      * (* the value for K is stored *)
        subst i'. destruct Hph as (Hget & Hn & Hex). step_eq Hstep.
        split_and!; [done..|]. exists (Fetched compliance). split.
        -- apply pcs_update with (Fetching i); [done|done|].
           intros j gj Hne Hj HKj Hokj.
           destruct (g_pc gj); simpl in *; done.
        -- split; [|done]. by apply served_store.
      * destruct Hph as [Hsv Hn]. step_eq Hstep.
        split_and!; [done..|]. exists (Fetched v).
        split; [by apply Hsame|]. by apply (phase_ok_threads (Fetched v)).
    + (* a caller for another key *)
      assert (∀ p j gj, alter (with_pc p) i (sys_threads s) !! j = Some gj →
                PolicyRuleId (g_policy gj) = K → pc_ok ph j (g_pc gj)) as Hpcs'.
      { intros p. apply pcs_update with ph; auto.
        intros g0 Hg0 HK0. congruence. }
      destruct (g_pc g) eqn:Hpc.
      * destruct (cache_Get _ _ _); step_eq Hstep;
          (split_and!; [done..|]); exists ph;
          (split; [apply Hpcs'|apply phase_ok_threads, Hph]).
      * destruct (sys_mu s); step_eq Hstep.
        split_and!; [done..|]. exists ph.
        split; [apply Hpcs'|apply phase_ok_threads, Hph].
      * destruct (cache_Get _ _ _); step_eq Hstep;
          (split_and!; [done..|]); exists ph;
          (split; [apply Hpcs'|apply phase_ok_threads, Hph]).
      * step_eq Hstep. split_and!; [done..|]. exists ph.
        split; [apply Hpcs'|]. apply phase_ok_threads.
        apply phase_ok_client with (sys_client s); [done| |done].
        etrans; [exact (fetches_for_send Cacheable K {| req_Policy := g_policy g |}
                          (sys_client s))|].
        simpl. by case_decide.
      * destruct (enrich_result_of Cacheable n _) as [err|resp]; simpl in Hstep;
          step_eq Hstep;
          (split_and!; [done..|]); exists ph;
          (split; [apply Hpcs'|apply phase_ok_threads, Hph]).
      * step_eq Hstep. split_and!; [done..|]. exists ph.
        split; [apply Hpcs'|]. apply phase_ok_threads. simpl.
        by apply phase_ok_store_other.
      * step_eq Hstep. split_and!; [done..|]. exists ph.
        split; [apply Hpcs'|apply phase_ok_threads, Hph].
      * done.
  - (* time passes *)
    case_decide as Hd; [|done]. step_eq Hstep. simpl in *.
    split_and!; [done..|]. exists ph. split; [done|]. simpl.
    destruct ph; simpl in *; destruct_and?; split_and?; try done;
      by apply cache_Get_None_later with (sys_now s); [|lia].
  - (* the janitor sweeps *)
    case_decide as Hci; [|done]. step_eq Hstep. simpl in *.
    split_and!; [done..|]. exists ph. split; [done|]. simpl.
    destruct ph; simpl in *; destruct_and?; split_and?; try done;
      try (by rewrite cache_Get_DeleteExpired by lia).
    by apply served_DeleteExpired.
Qed.

Lemma run_dedup_inv (evs : list event) (s s' : System) :
  dedup_inv K t0 de0 n0 s → run Cacheable evs s = Some s' → in_time t0 de0 s' → dedup_inv K t0 de0 n0 s'.
Proof.
  revert s. induction evs as [|ev evs IH]; intros s Hinv; simpl.
  - by intros [= <-].
  - destruct (step Cacheable ev s) as [s1|] eqn:Hstep; [|done].
    intros Hrun Htime. apply (IH s1); [|done..].
    apply (step_dedup_inv ev s); [done| |done].
    pose proof (step_now_mono _ _ _ _ Hstep). pose proof (run_now_mono _ _ _ _ Hrun).
    unfold in_time in *. lia.
Qed.

Lemma start_dedup_inv (c : CacheableClient) (policies : list Policy) :
  cache_Get (cache c) t0 K = None →
  defaultExpiration (cache c) = de0 →
  fetches_for K c = n0 →
  dedup_inv K t0 de0 n0 (start c t0 policies).
Proof.
  intros Hget Hde Hn. split_and!; [apply start_mutex_inv|done|simpl; lia|].
  exists Unfetched. split; [|done].
  intros j g Hj _. apply lookup_spawn in Hj as [-> _]. done.
Qed.

(** What the invariant says about the callers that have returned. *)
Lemma dedup_inv_returned (s : System) :
  dedup_inv K t0 de0 n0 s →
  (fetches_for K (sys_client s) ≤ S n0)%nat ∧
  ∀ i g ret, sys_threads s !! i = Some g → PolicyRuleId (g_policy g) = K →
             g_pc g = Returned ret →
             fetches_for K (sys_client s) = S n0 ∧ snd ret = None ∧
             ∀ j g' ret', sys_threads s !! j = Some g' → PolicyRuleId (g_policy g') = K →
                          g_pc g' = Returned ret' → ret' = ret.
Proof.
  intros (_ & _ & _ & ph & Hpcs & Hph). split.
  - destruct ph; simpl in Hph; destruct_and?; lia.
  - intros i g ret Hi HK Hpc. pose proof (Hpcs i g Hi HK) as Hok.
    rewrite Hpc in Hok. destruct ph as [|i'|v]; simpl in Hok; try done.
    destruct Hph as [_ Hn]. subst ret. split_and!; [done..|].
    intros j g' ret' Hj HK' Hpc'. pose proof (Hpcs j g' Hj HK') as Hok'.
    by rewrite Hpc' in Hok'.
Qed.

End Dedup.

(** C1 (amended): in cacheable.go, whatever the remote service answers and
    however the goroutines interleave with one another, with the clock and
    with the janitor, at most one remote fetch is in flight at any instant.
    If moreover the key [k] has no entry served by the store when the
    callers start, every request for [k] is answered with a success body,
    and the run lasts no longer than the TTL (or the TTL is "never
    expire"), then at most one request for [k] is ever sent, and as soon as
    a caller for [k] has returned exactly one has been sent and all callers
    for [k] that have returned have the same value and a nil error. *)
Theorem Retrieve_dedup (c : CacheableClient) (now : Z) (policies : list Policy)
    (evs : list event) (s : System) (k : string) :
  run Cacheable evs (start c now policies) = Some s →
  (fetches_in_flight s ≤ 1)%nat ∧
  (cache_Get (cache c) now k = None →
   (∀ n p, PolicyRuleId p = k → ∃ resp, enrich_result n {| req_Policy := p |} = inr resp) →
   defaultExpiration (cache c) ≤ 0 ∨ sys_now s ≤ now + defaultExpiration (cache c) →
   (fetches_for k (sys_client s) ≤ S (fetches_for k c))%nat ∧
   ∀ i g ret, sys_threads s !! i = Some g → PolicyRuleId (g_policy g) = k →
              g_pc g = Returned ret →
              fetches_for k (sys_client s) = S (fetches_for k c) ∧ snd ret = None ∧
              ∀ j g' ret', sys_threads s !! j = Some g' → PolicyRuleId (g_policy g') = k →
                           g_pc g' = Returned ret' → ret' = ret).
Proof.
  intros Hrun. split.
  - apply mutex_inv_in_flight. eapply run_mutex_inv; [apply start_mutex_inv|done].
  - intros Hmiss Hok Htime.
    apply (dedup_inv_returned k now (defaultExpiration (cache c)) (fetches_for k c)).
    apply (run_dedup_inv k now (defaultExpiration (cache c)) (fetches_for k c) Hok evs
             (start c now policies)); [|done|done].
    by apply start_dedup_inv.
Qed.

(** *** The check under the lock *)

(** cacheable.go: the statement after [c.mu.Lock()] is the second [Get];
    when it finds a value the goroutine leaves through the deferred unlock
    with that value and a nil error, and the client is untouched: no
    request has been sent. *)
Lemma Retrieve_second_check (i : nat) (s : System) (g : Goroutine) :
  sys_threads s !! i = Some g →
  (g_pc g = AtLock → sys_mu s = None →
   step_thread Cacheable i s = Some (set_mu (Some i) (set_pc i AtSecondGet s))) ∧
  (g_pc g = AtSecondGet →
   ∀ value, cache_Get (cache (sys_client s)) (sys_now s) (PolicyRuleId (g_policy g))
            = Some value →
            step_thread Cacheable i s = Some (set_pc i (AtUnlock (value, None)) s) ∧
            sys_client (set_pc i (AtUnlock (value, None)) s) = sys_client s) ∧
  (∀ ret, g_pc g = AtUnlock ret →
          step_thread Cacheable i s = Some (set_mu None (set_pc i (Returned ret) s))).
Proof.
  intros Hi. unfold step_thread. rewrite Hi. split_and!.
  - by intros -> ->.
  - intros -> value ->. done.
  - by intros ret ->.
Qed.

(** part_000: the statement after [c.mu.Lock()] is the fetch, whatever the
    store holds by then. *)
Lemma Retrieve_part000_no_second_check (i : nat) (s : System) (g : Goroutine) :
  sys_threads s !! i = Some g → g_pc g = AtLock → sys_mu s = None →
  ∃ s1 s2, step_thread Part000 i s = Some s1 ∧
           step_thread Part000 i s1 = Some s2 ∧
           calls (sys_client s2) = calls (sys_client s) ++ [{| req_Policy := g_policy g |}].
Proof.
  intros Hi Hpc Hmu. unfold step_thread at 1. rewrite Hi, Hpc, Hmu.
  eexists _, _. split; [done|]. unfold step_thread. simpl.
  rewrite list_lookup_alter_eq, Hi. simpl. done.
Qed.

(** The fast path does not look at [mu]: a goroutine whose key is served by
    the store returns in one step, whoever holds the lock, and sends
    nothing.  Both revisions. *)
Lemma Retrieve_hit_lock_free (rv : revision) (i : nat) (s : System) (g : Goroutine)
    (item : Item) :
  sys_threads s !! i = Some g → g_pc g = AtFastGet →
  items (cache (sys_client s)) !! PolicyRuleId (g_policy g) = Some item →
  unexpired item (sys_now s) →
  step_thread rv i s = Some (set_pc i (Returned (Object item, None)) s).
Proof.
  intros Hi Hpc Hk Hu. unfold step_thread. rewrite Hi, Hpc.
  by rewrite (cache_Get_unexpired _ _ _ item Hk Hu).
Qed.

(** *** One goroutine on its own *)

Lemma alter_with_pc_twice (p q : pc) (i : nat) (ts : list Goroutine) :
  alter (with_pc q) i (alter (with_pc p) i ts) = alter (with_pc q) i ts.
Proof. rewrite list_alter_alter_eq. by apply list_alter_ext. Qed.

Ltac solo_step Hat Htwice :=
  cbn -[cache_Get enrich_result enrich_result_part000 send store fetch_failed];
  unfold step_thread;
  cbn -[cache_Get enrich_result enrich_result_part000 send store fetch_failed];
  rewrite ?Htwice, ?Hat;
  cbn -[cache_Get enrich_result enrich_result_part000 send store fetch_failed].

Ltac solo_done Htwice :=
  unfold set_mu, set_pc, set_client;
  cbn [sys_client sys_now sys_mu sys_threads];
  by rewrite ?Htwice.

(** A goroutine that runs [Retrieve] without interference returns what the
    function [Retrieve_of] computes and leaves the client as the function
    does, with the lock released: the machine and the function are the same
    program, and [Retrieve] returns. *)
Lemma Retrieve_of_solo (rv : revision) (i : nat) (s : System) (g : Goroutine) :
  sys_threads s !! i = Some g → g_pc g = AtFastGet → sys_mu s = None →
  let r := Retrieve_of rv (sys_now s) (g_policy g) (sys_client s) in
  ∃ n, run rv (replicate n (Run i)) s
       = Some {| sys_client := snd r; sys_now := sys_now s; sys_mu := None;
                 sys_threads := alter (with_pc (Returned (fst r))) i (sys_threads s) |}.
Proof.
  intros Hi Hpc Hmu r. destruct s as [c now m ts]. simpl in *. subst m.
  assert (∀ p, alter (with_pc p) i ts !! i = Some (with_pc p g)) as Hat.
  { intros p. by rewrite list_lookup_alter_eq, Hi. }
  pose proof alter_with_pc_twice as Htwice.
  destruct (cache_Get (cache c) now (PolicyRuleId (g_policy g))) as [v|] eqn:Hget.
  - exists 1%nat. unfold r. rewrite (Retrieve_of_hit rv now _ c v Hget).
    cbn -[cache_Get]. unfold step_thread. cbn -[cache_Get]. by rewrite Hi, Hpc, Hget.
  - unfold r. rewrite (Retrieve_of_miss rv now _ c Hget). cbv zeta.
    destruct rv.
    + change (enrich_result_of Cacheable) with enrich_result.
      destruct (enrich_result (length (calls c)) {| req_Policy := g_policy g |})
        as [err|resp] eqn:Hres.
      * exists 6%nat. cbn -[cache_Get]. unfold step_thread. cbn -[cache_Get].
        rewrite Hi, Hpc, Hget.
        solo_step Hat Htwice. solo_step Hat Htwice. rewrite Hget.
        solo_step Hat Htwice. solo_step Hat Htwice. rewrite Hres.
        solo_step Hat Htwice. solo_step Hat Htwice. solo_done Htwice.
      * exists 7%nat. cbn -[cache_Get]. unfold step_thread. cbn -[cache_Get].
        rewrite Hi, Hpc, Hget.
        solo_step Hat Htwice. solo_step Hat Htwice. rewrite Hget.
        solo_step Hat Htwice. solo_step Hat Htwice. rewrite Hres.
        solo_step Hat Htwice. solo_step Hat Htwice. solo_step Hat Htwice. solo_done Htwice.
    + change (enrich_result_of Part000) with enrich_result_part000.
      destruct (enrich_result_part000 (length (calls c)) {| req_Policy := g_policy g |})
        as [err|resp] eqn:Hres.
      * exists 5%nat. cbn -[cache_Get]. unfold step_thread. cbn -[cache_Get].
        rewrite Hi, Hpc, Hget.
        solo_step Hat Htwice. solo_step Hat Htwice. solo_step Hat Htwice.
        rewrite Hres. solo_step Hat Htwice. solo_step Hat Htwice. solo_done Htwice.
      * exists 6%nat. cbn -[cache_Get]. unfold step_thread. cbn -[cache_Get].
        rewrite Hi, Hpc, Hget.
        solo_step Hat Htwice. solo_step Hat Htwice. solo_step Hat Htwice.
        rewrite Hres. solo_step Hat Htwice. solo_step Hat Htwice.
        solo_step Hat Htwice. solo_done Htwice.
Qed.

(** ** Further properties of [Retrieve] *)

(** One call of [Retrieve] sends at most one request and never retries: it
    sends none when the store serves the key, and otherwise exactly one,
    which carries the policy it was given (rule identifier and engine
    name).  Both revisions. *)
Theorem Retrieve_sends_at_most_one_request (rv : revision) (now : Z) (policy : Policy)
    (c : CacheableClient) :
  calls (snd (Retrieve_of rv now policy c)) =
    match cache_Get (cache c) now (PolicyRuleId policy) with
    | Some _ => calls c
    | None => calls c ++ [{| req_Policy := policy |}]
    end.
Proof.
  destruct (Retrieve_of_cases rv now policy c)
    as [(v & -> & ->)|[(-> & err & e & c' & _ & -> & _ & Hl)|(-> & resp & c' & _ & -> & _ & Hl)]];
    done.
Qed.

(** A failed lookup is not remembered: when a call returns an error, it has
    sent one request, and the next call for the same policy, made then or
    later, sends another one.  Both revisions. *)
Theorem Retrieve_retries_after_failure (rv : revision) (now now' : Z) (policy : Policy)
    (c c' : CacheableClient) (v : Compliance) (e : error) :
  Retrieve_of rv now policy c = ((v, Some e), c') → now ≤ now' →
  calls c' = calls c ++ [{| req_Policy := policy |}] ∧
  calls (snd (Retrieve_of rv now' policy c'))
  = calls c ++ [{| req_Policy := policy |}; {| req_Policy := policy |}].
Proof.
  intros HR Hle.
  destruct (Retrieve_of_cases rv now policy c)
    as [(v' & _ & HR')|[(Hmiss & err & e' & c1 & _ & HR' & Hc & Hl)|(_ & resp & c1 & _ & HR' & _)]];
    rewrite HR in HR'; simplify_eq.
  split; [done|].
  destruct (Retrieve_of_cases rv now' policy c1)
    as [(v' & Hget & _)|[(_ & err' & e'' & c2 & _ & -> & _ & Hl')|(_ & resp & c2 & _ & -> & _ & Hl')]].
  - rewrite Hc, (cache_Get_None_later _ now now' _ Hmiss Hle) in Hget. done.
  - simpl. rewrite Hl', Hl, <- app_assoc. done.
  - simpl. rewrite Hl', Hl, <- app_assoc. done.
Qed.

Lemma permanent_New_nonpositive (ttl : Z) :
  ttl ≤ 0 → permanent (NewCacheableClient ttl).
Proof.
  intros Hle. split; simpl.
  - case_decide; lia.
  - intros k item. by rewrite lookup_empty.
Qed.

(** Every TTL that is not positive means "never expire", the zero value of
    an unset [cache_ttl] included: on a client constructed with such a TTL
    a policy that has been answered once is served from the cache at every
    later call, at any instant, and no request is sent for it again.  Both
    revisions. *)
Theorem Retrieve_nonpositive_ttl_never_expires (rv : revision) (ttl : Z)
    (h1 : list (Z * Policy)) (t0 : Z) (policy : Policy) (v : Compliance)
    (c1 : CacheableClient) :
  ttl ≤ 0 →
  Retrieve_of rv t0 policy (Retrieve_all rv h1 (NewCacheableClient ttl)) = ((v, None), c1) →
  ∀ h2 t1, let c3 := Retrieve_all rv h2 c1 in
           Retrieve_of rv t1 policy c3 = ((v, None), c3).
Proof.
  intros Hle HR h2 t1 c3.
  assert (permanent (Retrieve_all rv h1 (NewCacheableClient ttl))) as Hp
    by (apply permanent_Retrieve_all; by apply permanent_New_nonpositive).
  destruct (permanent_Retrieve_of rv t0 policy _ Hp) as [Hp1 _].
  rewrite HR in Hp1. simpl in Hp1.
  destruct (cache_Get_Some _ _ _ _ (Retrieve_of_success_cached _ _ _ _ _ _ HR))
    as (item & Hk & <- & _).
  destruct (permanent_Retrieve_all rv h2 c1 Hp1) as [Hp3 Hkeep].
  apply Retrieve_of_hit, cache_Get_unexpired; [by apply Hkeep|].
  left. by rewrite (proj2 Hp1 _ _ Hk).
Qed.

(** The TTL runs from the fetch and a hit does not extend it: after a fetch
    at [t0] on a client with a positive TTL, any number of calls for the
    policy made no later than [t0 + ttl] leave the client exactly as the
    fetch left it, and the first call after [t0 + ttl] sends a new request
    however recent the last hit was.  Both revisions. *)
Theorem Retrieve_ttl_is_not_sliding (rv : revision) (ttl : Z) (h1 : list (Z * Policy))
    (t0 : Z) (policy : Policy) (v : Compliance) (c1 : CacheableClient) (hits : list Z) :
  let c := Retrieve_all rv h1 (NewCacheableClient ttl) in
  0 < ttl → 0 ≤ t0 →
  cache_Get (cache c) t0 (PolicyRuleId policy) = None →
  Retrieve_of rv t0 policy c = ((v, None), c1) →
  Forall (fun t => t ≤ t0 + ttl) hits →
  Retrieve_all rv (map (fun t => (t, policy)) hits) c1 = c1 ∧
  ∀ t1, t0 + ttl < t1 →
        calls (snd (Retrieve_of rv t1 policy
                      (Retrieve_all rv (map (fun t => (t, policy)) hits) c1)))
        = calls c1 ++ [{| req_Policy := policy |}].
Proof.
  intros c Hpos Ht0 Hmiss HR Hhits.
  assert (defaultExpiration (cache c) = ttl) as Hde.
  { unfold c. rewrite Retrieve_all_defaultExpiration. simpl. case_decide; lia. }
  destruct (Retrieve_of_cases rv t0 policy c)
    as [(v' & Hget & _)|[(_ & err & e & c' & _ & HR' & _)|(_ & resp & c' & _ & HR' & Hc & _)]];
    [congruence| |]; rewrite HR in HR'; simplify_eq.
  assert (items (cache c') !! PolicyRuleId policy
          = Some {| Object := resp_Compliance resp; Expiration := t0 + ttl |}) as Hitem.
  { rewrite Hc. simpl. rewrite lookup_insert_eq. rewrite Hde.
    unfold DefaultExpiration. repeat case_decide; try done; lia. }
  assert (Retrieve_all rv (map (fun t => (t, policy)) hits) c' = c') as Hsame.
  { induction Hhits as [|t hits Ht _ IH]; simpl; [done|].
    rewrite (Retrieve_of_hit rv t policy c' (resp_Compliance resp)); [done|].
    rewrite (cache_Get_unexpired _ t _ _ Hitem); [done|]. right. simpl. lia. }
  split; [done|]. intros t1 Ht1. rewrite Hsame.
  destruct (Retrieve_of_cases rv t1 policy c')
    as [(v' & Hget & _)|[(_ & err & e & c2 & _ & -> & _ & Hl)|(_ & r & c2 & _ & -> & _ & Hl)]];
    try done.
  unfold cache_Get in Hget. rewrite Hitem in Hget. simpl in Hget.
  repeat case_decide; try done; lia.
Qed.

(** The two revisions succeed on the same responses. *)
Lemma enrich_result_revisions (n : nat) (req : EnrichmentRequest) :
  match enrich_result n req, enrich_result_part000 n req with
  | inr r, inr r0 => r = r0
  | inl _, inl _ => True
  | _, _ => False
  end.
Proof.
  unfold enrich_result, enrich_result_part000.
  destruct (PostV1Enrich n req) as [err|resp]; [done|].
  destruct (ParsePostV1EnrichResponse resp) as [err|parsedResp]; [done|].
  destruct (JSON200 parsedResp); [done|]. by destruct (JSONDefault parsedResp).
Qed.

(** Without other goroutines the second check of cacheable.go changes
    nothing: for every client, instant and policy the two revisions return
    the same value, fail together, and leave the same cache and the same
    requests behind.  They differ in the text of the error and in what they
    log. *)
Theorem Retrieve_revisions_agree (now : Z) (policy : Policy) (c : CacheableClient) :
  let r := Retrieve now policy c in
  let r0 := Retrieve_part000 now policy c in
  fst (fst r) = fst (fst r0) ∧
  (snd (fst r) = None ↔ snd (fst r0) = None) ∧
  cache (snd r) = cache (snd r0) ∧
  calls (snd r) = calls (snd r0).
Proof.
  intros r r0. unfold r, r0.
  change Retrieve with (Retrieve_of Cacheable).
  change Retrieve_part000 with (Retrieve_of Part000).
  destruct (cache_Get (cache c) now (PolicyRuleId policy)) as [v|] eqn:Hget.
  - by rewrite !(Retrieve_of_hit _ now policy c v Hget).
  - rewrite !Retrieve_of_miss by done. simpl.
    pose proof (enrich_result_revisions (length (calls c)) {| req_Policy := policy |}) as H.
    destruct (enrich_result _ _) as [err|resp], (enrich_result_part000 _ _) as [err0|resp0];
      try done; simpl.
    by subst resp0.
Qed.

(** ** Further properties of concurrent callers *)

(** In both revisions the critical section is exclusive: in every state a
    run can reach, two goroutines are never both between [c.mu.Lock()] and
    the deferred unlock, and at most one remote fetch is in flight. *)
Theorem Retrieve_mutual_exclusion (rv : revision) (c : CacheableClient) (now : Z)
    (policies : list Policy) (evs : list event) (s : System) :
  run rv evs (start c now policies) = Some s →
  (fetches_in_flight s ≤ 1)%nat ∧
  ∀ i j gi gj, sys_threads s !! i = Some gi → sys_threads s !! j = Some gj →
               holds_lock (g_pc gi) = true → holds_lock (g_pc gj) = true → i = j.
Proof.
  intros Hrun.
  assert (mutex_inv s) as Hmx by (eapply run_mutex_inv; [apply start_mutex_inv|done]).
  split; [by apply mutex_inv_in_flight|].
  intros i j gi gj Hi Hj Hli Hlj.
  pose proof (Hmx i gi Hi Hli). pose proof (Hmx j gj Hj Hlj). congruence.
Qed.

Lemma step_owner_inv (rv : revision) (ev : event) (s s' : System) :
  owner_inv s → step rv ev s = Some s' → owner_inv s'.
Proof.
  intros Hinv. destruct ev as [i|d|]; simpl.
  - unfold step_thread.
    destruct (sys_threads s !! i) as [g|] eqn:Hi; [|done].
    assert (∀ p, (holds_lock (g_pc g) = true → holds_lock p = true) →
                 owner_inv (set_pc i p s)) as Hkeep.
    { intros p Hp h Hh. simpl in Hh. destruct (Hinv h Hh) as (gh & Hgh & Hlh).
      destruct (decide (i = h)) as [->|Hne].
      - exists (with_pc p gh). simpl. rewrite list_lookup_alter_eq, Hgh.
        split; [done|]. simpl. apply Hp. congruence.
      - exists gh. simpl. by rewrite list_lookup_alter_ne. }
    destruct (g_pc g) eqn:Hpc.
    + destruct (cache_Get _ _ _); intros [= <-]; by apply Hkeep.
    + destruct (sys_mu s) as [h|] eqn:Hmu; [done|]. intros [= <-].
      intros h Hh. simpl in Hh. simplify_eq.
      exists (with_pc (after_lock rv) g). simpl. rewrite list_lookup_alter_eq, Hi.
      split; [done|]. by destruct rv.
    + destruct (cache_Get _ _ _); intros [= <-]; by apply Hkeep.
    + intros [= <-]. by apply (Hkeep (InFlight _)).
    + destruct (enrich_result_of _ _ _).
      * destruct (fetch_failed _ _ _ _) as [ret c']. intros [= <-].
        by apply (Hkeep (AtUnlock _)).
      * intros [= <-]. by apply (Hkeep (AtSet _)).
    + intros [= <-]. by apply (Hkeep (AtUnlock _)).
    + intros [= <-]. intros h Hh. done.
    + done.
  - case_decide; [|done]. intros [= <-]. exact Hinv.
  - case_decide; [|done]. intros [= <-]. exact Hinv.
Qed.

Lemma run_owner_inv (rv : revision) (evs : list event) (s s' : System) :
  owner_inv s → run rv evs s = Some s' → owner_inv s'.
Proof.
  revert s. induction evs as [|ev evs IH]; intros s Hinv; simpl.
  - by intros [= <-].
  - destruct (step rv ev s) as [s1|] eqn:Hstep; [|done].
    apply IH. by eapply step_owner_inv.
Qed.

(** A goroutine that holds the lock, or one that has not returned while the
    lock is free, has a next statement to run. *)
Lemma step_thread_enabled (rv : revision) (i : nat) (s : System) (g : Goroutine) :
  sys_threads s !! i = Some g →
  holds_lock (g_pc g) = true ∨ (sys_mu s = None ∧ result_of g = None) →
  ∃ s', step_thread rv i s = Some s'.
Proof.
  intros Hi Hcan. unfold step_thread. rewrite Hi. unfold result_of in Hcan.
  destruct (g_pc g); simpl in Hcan.
  - destruct (cache_Get _ _ _); eauto.
  - destruct Hcan as [|[-> _]]; [done|]. eauto.
  - destruct (cache_Get _ _ _); eauto.
  - eauto.
  - destruct (enrich_result_of _ _ _); [|eauto].
    destruct (fetch_failed _ _ _ _). eauto.
  - eauto.
  - eauto.
  - destruct Hcan as [|[_ ?]]; done.
Qed.

(** The lock is released on every path and nobody waits for ever, in both
    revisions: in every state a run can reach, [mu] is free exactly when no
    goroutine is inside the critical section (so it is free once all have
    returned), and as long as some goroutine has not returned there is a
    goroutine that can run its next statement.  A remote call is taken to
    return. *)
Theorem Retrieve_releases_lock (rv : revision) (c : CacheableClient) (now : Z)
    (policies : list Policy) (evs : list event) (s : System) :
  run rv evs (start c now policies) = Some s →
  (sys_mu s = None ↔
   ∀ i g, sys_threads s !! i = Some g → holds_lock (g_pc g) = false) ∧
  ((∃ i g, sys_threads s !! i = Some g ∧ result_of g = None) →
   ∃ j s', step_thread rv j s = Some s').
Proof.
  intros Hrun.
  assert (mutex_inv s) as Hmx by (eapply run_mutex_inv; [apply start_mutex_inv|done]).
  assert (owner_inv s) as How.
  { eapply run_owner_inv; [|done]. intros i Hi. done. }
  split; [split|].
  - intros Hfree i g Hi. destruct (holds_lock (g_pc g)) eqn:Hl; [|done].
    pose proof (Hmx i g Hi Hl). congruence.
  - intros Hnone. destruct (sys_mu s) as [h|] eqn:Hmu; [|done].
    destruct (How h Hmu) as (g & Hg & Hl). rewrite (Hnone h g Hg) in Hl. done.
  - intros (i & g & Hi & Hres).
    destruct (sys_mu s) as [h|] eqn:Hmu.
    + destruct (How h Hmu) as (gh & Hgh & Hl). exists h.
      apply (step_thread_enabled rv h s gh Hgh). by left.
    + exists i. apply (step_thread_enabled rv i s g Hi). by right.
Qed.

Lemma step_miss_inv (ev : event) (s s' : System) :
  mutex_inv s → miss_inv s → step Cacheable ev s = Some s' → miss_inv s'.
Proof.
  intros Hmx Hinv. destruct ev as [i|d|]; simpl.
  - unfold step_thread.
    destruct (sys_threads s !! i) as [g|] eqn:Hi; [|done].
    (* a statement that leaves the cache alone and does not enter the fetch *)
    assert (∀ p c', cache c' = cache (sys_client s) →
              (fetching p = true → fetching (g_pc g) = true ∨
                 cache_Get (cache (sys_client s)) (sys_now s) (PolicyRuleId (g_policy g)) = None) →
              miss_inv (set_client c' (set_pc i p s))) as Hkeep.
    { intros p c' Hc Hp j gj Hj Hf. simpl in *. rewrite Hc.
      destruct (lookup_with_pc _ _ _ _ _ Hj) as [(-> & Hpc & g0 & Hg0 & Hpol)|(Hne & Hj')].
      - rewrite Hpc in Hf. rewrite Hpol.
        assert (g0 = g) as -> by congruence.
        destruct (Hp Hf) as [Hold|Hmiss]; [|done]. by apply (Hinv j g).
      - by apply (Hinv j gj). }
    destruct (g_pc g) eqn:Hpc.
    + destruct (cache_Get _ _ _); intros [= <-];
        by apply (Hkeep _ (sys_client s)).
    + destruct (sys_mu s) as [h|] eqn:Hmu; [done|]. intros [= <-].
      by apply (Hkeep AtSecondGet (sys_client s)).
    + destruct (cache_Get _ _ _) eqn:Hget; intros [= <-].
      * by apply (Hkeep _ (sys_client s)).
      * apply (Hkeep AtCall (sys_client s)); [done|]. by right.
    + intros [= <-]. apply (Hkeep (InFlight _)); [done|]. by left.
    + simpl. destruct (enrich_result _ _).
      * intros [= <-]. by apply (Hkeep (AtUnlock _)).
      * intros [= <-]. apply (Hkeep (AtSet _) (sys_client s)); [done|]. by left.
    + intros [= <-]. intros j gj Hj Hf. simpl in Hj.
      destruct (lookup_with_pc _ _ _ _ _ Hj) as [(-> & Hp & _)|(Hne & Hj')].
      * by rewrite Hp in Hf.
      * assert (holds_lock (g_pc gj) = true) as Hlj by (by destruct (g_pc gj)).
        pose proof (Hmx j gj Hj' Hlj) as Hmj.
        pose proof (Hmx i g Hi) as Hmi. rewrite Hpc in Hmi.
        specialize (Hmi eq_refl). congruence.
    + intros [= <-]. intros j gj Hj Hf. simpl in *.
      destruct (lookup_with_pc _ _ _ _ _ Hj) as [(-> & Hp & _)|(Hne & Hj')].
      * by rewrite Hp in Hf.
      * by apply (Hinv j gj).
    + done.
  - case_decide as Hd; [|done]. intros [= <-]. intros j gj Hj Hf. simpl in *.
    apply cache_Get_None_later with (sys_now s); [|lia]. by apply (Hinv j gj).
  - case_decide; [|done]. intros [= <-]. intros j gj Hj Hf. simpl in *.
    rewrite cache_Get_DeleteExpired by lia. by apply (Hinv j gj).
Qed.

(** cacheable.go fetches only what the store does not serve: in every state
    a run can reach, a goroutine that is about to send its request, waits
    for the response or is about to store the result works on a key that
    the store does not serve at that instant.  This is what the second
    check under the lock buys; part_000 does not have the property. *)
Theorem Retrieve_fetches_only_unserved_keys (c : CacheableClient) (now : Z)
    (policies : list Policy) (evs : list event) (s : System) :
  run Cacheable evs (start c now policies) = Some s →
  ∀ i g, sys_threads s !! i = Some g → fetching (g_pc g) = true →
         cache_Get (cache (sys_client s)) (sys_now s) (PolicyRuleId (g_policy g)) = None.
Proof.
  assert (∀ evs s0, mutex_inv s0 → miss_inv s0 →
            run Cacheable evs s0 = Some s → miss_inv s) as Hrun.
  { clear. intros evs. induction evs as [|ev evs IH]; intros s0 Hmx Hinv; simpl.
    - by intros [= <-].
    - destruct (step Cacheable ev s0) as [s1|] eqn:Hstep; [|done].
      apply IH; [by eapply step_mutex_inv|by eapply step_miss_inv]. }
  intros H. apply (Hrun evs (start c now policies)); [apply start_mutex_inv| |done].
  intros i g Hi Hf. simpl in Hi. apply lookup_spawn in Hi as [Hpc _].
  by rewrite Hpc in Hf.
Qed.

Lemma step_hit_inv (rv : revision) (k : string) (item : Item) (n0 : nat)
    (ev : event) (s s' : System) :
  hit_inv k item n0 s → unexpired item (sys_now s) →
  step rv ev s = Some s' → hit_inv k item n0 s'.
Proof.
  intros (Hitem & Hn & Hpcs) Hlive. destruct ev as [i|d|]; simpl.
  - unfold step_thread.
    destruct (sys_threads s !! i) as [g|] eqn:Hi; [|done].
    destruct (decide (PolicyRuleId (g_policy g) = k)) as [HK|HnK].
    + (* a caller for k: it is on the fast path, and hits *)
      destruct (Hpcs i g Hi HK) as [Hpc|Hpc]; rewrite Hpc; [|done].
      rewrite HK, (cache_Get_unexpired _ _ _ item Hitem Hlive). intros [= <-].
      split_and!; [done..|]. intros j gj Hj HKj. simpl in Hj.
      destruct (lookup_with_pc _ _ _ _ _ Hj) as [(-> & Hp & _)|(Hne & Hj')]; [by right|].
      by apply (Hpcs j gj).
    + (* a caller for another key *)
      assert (∀ p c', items (cache c') !! k = Some item → fetches_for k c' = n0 →
                hit_inv k item n0 (set_client c' (set_pc i p s))) as Hkeep.
      { intros p c' Hc Hl. split_and!; [done..|]. intros j gj Hj HKj. simpl in Hj.
        destruct (lookup_with_pc _ _ _ _ _ Hj) as [(-> & _ & g0 & Hg0 & Hpol)|(Hne & Hj')].
        - simplify_eq. congruence.
        - by apply (Hpcs j gj). }
      destruct (g_pc g) eqn:Hpc.
      * destruct (cache_Get _ _ _); intros [= <-]; by apply (Hkeep _ (sys_client s)).
      * destruct (sys_mu s); [done|]. intros [= <-].
        by apply (Hkeep (after_lock rv) (sys_client s)).
      * destruct (cache_Get _ _ _); intros [= <-]; by apply (Hkeep _ (sys_client s)).
      * intros [= <-]. apply (Hkeep (InFlight _)).
        -- by rewrite (proj2 (calls_send rv _ _)).
        -- rewrite fetches_for_send. simpl. by case_decide.
      * destruct (enrich_result_of _ _ _).
        -- destruct (fetch_failed_spec rv (g_policy g) e (sys_client s))
             as (e' & c' & -> & Hc & Hl & _).
           intros [= <-]. apply (Hkeep (AtUnlock _)); [by rewrite Hc|].
           by rewrite (fetches_for_calls k _ _ Hl).
        -- intros [= <-]. by apply (Hkeep (AtSet _) (sys_client s)).
      * intros [= <-]. apply (Hkeep (AtUnlock _)); [|done].
        simpl. by rewrite lookup_insert_ne.
      * intros [= <-]. by apply (Hkeep (Returned _) (sys_client s)).
      * done.
  - case_decide; [|done]. by intros [= <-].
  - case_decide; [|done]. intros [= <-]. split_and!; [|done..]. simpl.
    apply map_lookup_filter_Some_2; [done|]. simpl. unfold unexpired in Hlive. lia.
Qed.

(** Hits never reach the remote service, however many callers there are:
    if the store holds an entry for a key when the callers start and the
    entry has not expired by the end of the run, then in every interleaving
    no request for the key is sent, and every caller for the key is still
    at its first statement or has returned the cached value with a nil
    error, without ever having waited for the lock.  Both revisions. *)
Theorem Retrieve_concurrent_hits (rv : revision) (c : CacheableClient) (now : Z)
    (policies : list Policy) (evs : list event) (s : System) (k : string) (item : Item) :
  run rv evs (start c now policies) = Some s →
  items (cache c) !! k = Some item →
  unexpired item (sys_now s) →
  fetches_for k (sys_client s) = fetches_for k c ∧
  ∀ i g, sys_threads s !! i = Some g → PolicyRuleId (g_policy g) = k →
         g_pc g = AtFastGet ∨ g_pc g = Returned (Object item, None).
Proof.
  intros Hrun Hitem Hlive.
  assert (∀ evs s0, hit_inv k item (fetches_for k c) s0 →
            run rv evs s0 = Some s → hit_inv k item (fetches_for k c) s) as Hruns.
  { clear -Hlive. intros evs. induction evs as [|ev evs IH]; intros s0 Hinv; simpl.
    - by intros [= <-].
    - destruct (step rv ev s0) as [s1|] eqn:Hstep; [|done].
      intros Hrun. apply (IH s1); [|done].
      apply (step_hit_inv rv k item _ ev s0); [done| |done].
      pose proof (step_now_mono _ _ _ _ Hstep). pose proof (run_now_mono _ _ _ _ Hrun).
      unfold unexpired in *. lia. }
  destruct (Hruns evs (start c now policies)) as (_ & Hn & Hpcs); [|done|done].
  split_and!; [done..|]. intros i g Hi _. left. simpl in Hi.
  by apply lookup_spawn in Hi as [-> _].
Qed.

(** ** Further properties of [processLogs] *)

(** What one record does to the client besides logging: nothing, or one
    call of [Retrieve] for the policy read from the record. *)
Lemma processRecord_client (rv : revision) (now : Z) (logRecord : LogRecord)
    (c : CacheableClient) :
  let c' := snd (processRecord rv now logRecord c) in
  (cache c' = cache c ∧ calls c' = calls c) ∨
  ∃ policy, extracted logRecord = Some policy ∧
            cache c' = cache (snd (Retrieve_of rv now policy c)) ∧
            calls c' = calls (snd (Retrieve_of rv now policy c)).
Proof.
  unfold processRecord, extracted.
  destruct (Extract logRecord) as [err|[policy status]]; simpl; [by left|].
  right. exists policy. split; [done|].
  destruct (Retrieve_of rv now policy c) as [[v [e|]] c1]; simpl; [done|].
  destruct (Apply logRecord v status) as [r' [e|]]; done.
Qed.

(** [processLogs] sends its requests in the order of the batch and only for
    records that have a key: the requests it adds are a subsequence of the
    requests for the policies read from the records, so there is at most
    one per record and none for an empty batch or for a record without a
    key.  Both revisions. *)
Theorem processLogs_requests_in_batch_order (rv : revision) (now : Z) (ld : Logs)
    (c : CacheableClient) :
  ∃ sent, calls (snd (processLogs rv now ld c)) = calls c ++ sent ∧
          sent `sublist_of` (Build_EnrichmentRequest <$> omap extracted (records ld)).
Proof.
  rewrite (proj2 (processLogs_records rv now ld c)).
  generalize (records ld). clear ld. intros rs. revert c.
  induction rs as [|r rs IH]; intros c.
  - exists []. simpl. by rewrite app_nil_r.
  - rewrite for_each_cons. simpl.
    destruct (IH (snd (processRecord rv now r c))) as (sent & -> & Hsub).
    destruct (processRecord_client rv now r c) as [[_ ->]|(policy & Hex & _ & ->)].
    + exists sent. split; [done|].
      destruct (extracted r); simpl; [by apply sublist_cons|done].
    + rewrite Hex. simpl.
      destruct (Retrieve_of_cases rv now policy c)
        as [(v & _ & ->)|[(_ & err & e & c' & _ & -> & _ & Hl)|(_ & resp & c' & _ & -> & _ & Hl)]];
        simpl; rewrite ?Hl.
      * exists sent. split; [done|]. by apply sublist_cons.
      * exists ({| req_Policy := policy |} :: sent). rewrite <- app_assoc.
        split; [done|]. by apply sublist_skip.
      * exists ({| req_Policy := policy |} :: sent). rewrite <- app_assoc.
        split; [done|]. by apply sublist_skip.
Qed.

(** When [Apply] fails on a record the error is logged with the rule
    identifier, the record stays as [Apply] has left it (it is not put back
    to what it was), and the loop goes on with the next record.  Both
    revisions. *)
Theorem processLogs_apply_failure (rv : revision) (now : Z)
    (before after : list LogRecord) (logRecord logRecord' : LogRecord)
    (c c1' : CacheableClient) (policy : Policy) (status : EvidenceStatus)
    (enrichment : Compliance) (err : error) :
  let body := processRecord rv now in
  let c1 := snd (for_each body before c) in
  let c2 := log_write (apply_failed policy err) c1' in
  Extract logRecord = inr (policy, status) →
  Retrieve_of rv now policy c1 = ((enrichment, None), c1') →
  Apply logRecord enrichment status = (logRecord', Some err) →
  for_each body (before ++ logRecord :: after) c
  = (fst (for_each body before c) ++ logRecord' :: fst (for_each body after c2),
     snd (for_each body after c2)).
Proof.
  intros body c1 c2 Hex HR Happly.
  rewrite for_each_app, for_each_cons. fold c1.
  assert (body logRecord c1 = (logRecord', c2)) as ->; [|done].
  unfold body, processRecord. by rewrite Hex, HR, Happly.
Qed.

(** [processLogs] gives back a batch of the shape it was given: the same
    number of resources, of scopes in each resource and of records in each
    scope, whatever fails.  Both revisions. *)
Theorem processLogs_keeps_shape (rv : revision) (now : Z) (ld : Logs) (c : CacheableClient) :
  shape (fst (fst (processLogs rv now ld c))) = shape ld.
Proof.
  unfold processLogs.
  match goal with |- context [for_each ?f ld c] => set (resource := f) end.
  assert (∀ ilss c,
    map (fun ils => length (LogRecords ils))
      (fst (for_each (fun (ils : ScopeLogs) (c : CacheableClient) =>
              let '(logs, c) := for_each (processRecord rv now) (LogRecords ils) c in
              ({| LogRecords := logs |}, c)) ilss c))
    = map (fun ils => length (LogRecords ils)) ilss) as Hscopes.
  { clear. induction ilss as [|ils ilss IH]; intros c; [done|].
    rewrite for_each_cons. simpl. rewrite IH. f_equal.
    pose proof (for_each_length (processRecord rv now) (LogRecords ils) c) as Hlen.
    by destruct (for_each (processRecord rv now) (LogRecords ils) c). }
  assert (∀ ld c, shape (fst (for_each resource ld c)) = shape ld) as H.
  { clear ld c. induction ld as [|rs ld IH]; intros c; [done|].
    rewrite for_each_cons. unfold shape in *. simpl. rewrite IH. f_equal.
    unfold resource at 1. specialize (Hscopes (ScopeLogs_of rs) c).
    by destruct (for_each _ (ScopeLogs_of rs) c). }
  specialize (H ld c). by destruct (for_each resource ld c).
Qed.

(** Whatever [Retrieve] keeps, and that only depends on the cache and on
    the requests sent, [processLogs] keeps. *)
Lemma processLogs_preserves (rv : revision) (now : Z) (P : CacheableClient → Prop) :
  (∀ c c', cache c' = cache c → calls c' = calls c → P c → P c') →
  (∀ policy c, P c → P (snd (Retrieve_of rv now policy c))) →
  ∀ ld c, P c → P (snd (processLogs rv now ld c)).
Proof.
  intros Hext HR ld c. rewrite (proj2 (processLogs_records rv now ld c)).
  generalize (records ld). clear ld. intros rs. revert c.
  induction rs as [|r rs IH]; intros c Hc; [done|].
  rewrite for_each_cons. simpl. apply IH.
  destruct (processRecord_client rv now r c) as [[Hcache Hcalls]|(policy & _ & Hcache & Hcalls)].
  - by apply (Hext c).
  - apply (Hext (snd (Retrieve_of rv now policy c))); auto.
Qed.

Lemma fetches_for_snoc (k : string) (c c' : CacheableClient) (policy : Policy) :
  calls c' = calls c ++ [{| req_Policy := policy |}] →
  fetches_for k c' =
    if decide (PolicyRuleId policy = k) then S (fetches_for k c) else fetches_for k c.
Proof.
  intros Hl. unfold fetches_for. rewrite Hl, filter_app, length_app.
  rewrite filter_cons, filter_nil. simpl. repeat case_decide; simpl; try done; lia.
Qed.

Lemma permanent_present_hit (c : CacheableClient) (now : Z) (k : string) :
  permanent c → is_Some (items (cache c) !! k) → is_Some (cache_Get (cache c) now k).
Proof.
  intros [_ Hperm] [item Hk]. exists (Object item).
  apply cache_Get_unexpired; [done|]. left. by rewrite (Hperm _ _ Hk).
Qed.

(** Within a batch a key is fetched once.  On a client whose entries never
    expire, if the remote service answers the requests for a rule
    identifier with a success body, [processLogs] sends at most one request
    for that rule identifier however many records of the batch carry it,
    and none at all if the store already holds it.  Both revisions. *)
Theorem processLogs_fetches_key_once (rv : revision) (now : Z) (ld : Logs)
    (c : CacheableClient) (k : string) :
  permanent c →
  (∀ n p, PolicyRuleId p = k →
          ∃ resp, enrich_result_of rv n {| req_Policy := p |} = inr resp) →
  (fetches_for k (snd (processLogs rv now ld c)) ≤ S (fetches_for k c))%nat ∧
  (is_Some (items (cache c) !! k) →
   fetches_for k (snd (processLogs rv now ld c)) = fetches_for k c).
Proof.
  intros Hperm Hok.
  set (n0 := fetches_for k c).
  set (held := fun c' : CacheableClient =>
         permanent c' ∧ is_Some (items (cache c') !! k) ∧ fetches_for k c' = n0).
  assert (∀ policy c', held c' → held (snd (Retrieve_of rv now policy c'))) as Hheld.
  { intros policy c' (Hp & Hk & Hn).
    destruct (permanent_Retrieve_of rv now policy c' Hp) as [Hp' Hkeep].
    split; [done|]. split.
    - destruct Hk as [item Hk]. exists item. by apply Hkeep.
    - destruct (Retrieve_of_cases rv now policy c')
        as [(v & _ & ->)|[(Hmiss & err & e & c2 & _ & -> & _ & Hl)|(Hmiss & resp & c2 & _ & -> & _ & Hl)]];
        simpl; [done| |];
        rewrite (fetches_for_snoc k c' c2 policy Hl); case_decide as HK; try done;
        subst k; destruct (permanent_present_hit c' now _ Hp Hk) as [x Hx]; congruence. }
  assert (∀ c1 c2, cache c2 = cache c1 → calls c2 = calls c1 → held c1 → held c2) as Hheld_ext.
  { intros c1 c2 Hcache Hcalls (Hp & Hk & Hn). unfold held, permanent.
    by rewrite Hcache, (fetches_for_calls k c1 c2 Hcalls). }
  split.
  - assert (∀ c', permanent c' ∧ (fetches_for k c' = n0 ∨
                     (is_Some (items (cache c') !! k) ∧ fetches_for k c' = S n0)) →
              (fetches_for k c' ≤ S n0)%nat) as Hle by (intros c' [_ [->|[_ ->]]]; lia).
    apply Hle.
    apply (processLogs_preserves rv now
             (fun c' => permanent c' ∧ (fetches_for k c' = n0 ∨
                          (is_Some (items (cache c') !! k) ∧ fetches_for k c' = S n0)))).
    + intros c1 c2 Hcache Hcalls [Hp Hc1]. unfold permanent.
      by rewrite Hcache, (fetches_for_calls k c1 c2 Hcalls).
    + intros policy c' [Hp Hc'].
      destruct (permanent_Retrieve_of rv now policy c' Hp) as [Hp' Hkeep].
      split; [done|].
      destruct Hc' as [Hn|[Hk Hn]].
      * destruct (Retrieve_of_cases rv now policy c')
          as [(v & _ & ->)|[(Hmiss & err & e & c2 & Herr & -> & _ & Hl)|(Hmiss & resp & c2 & _ & -> & Hc2 & Hl)]];
          simpl; [by left| |];
          rewrite (fetches_for_snoc k c' c2 policy Hl); case_decide as HK; try (by left).
        -- destruct (Hok (length (calls c')) policy HK) as [resp Hresp]. congruence.
        -- right. split; [|by rewrite Hn]. subst k. rewrite Hc2. simpl.
           rewrite lookup_insert_eq. done.
      * right. split.
        -- destruct Hk as [item Hk]. exists item. by apply Hkeep.
        -- destruct (Retrieve_of_cases rv now policy c')
             as [(v & _ & ->)|[(Hmiss & err & e & c2 & _ & -> & _ & Hl)|(Hmiss & resp & c2 & _ & -> & _ & Hl)]];
             simpl; [done| |];
             rewrite (fetches_for_snoc k c' c2 policy Hl); case_decide as HK; try done;
             subst k; destruct (permanent_present_hit c' now _ Hp Hk) as [x Hx]; congruence.
    + split; [done|]. by left.
  - intros Hk.
    apply (processLogs_preserves rv now held Hheld_ext Hheld ld c). done.
Qed.

(** ** The processor before [start] *)

Lemma Validate_ok (cfg : Config) : Validate cfg = None ↔ Endpoint cfg ≠ "".
Proof. unfold Validate. case_decide; split; intros; done. Qed.

Lemma for_each_panic_records (rs : list LogRecord) (lg : list LogEntry) :
  match for_each_panic processRecord_nil rs lg with
  | None => ∃ r, r ∈ rs ∧ is_Some (extracted r)
  | Some (rs', lg') => rs' = rs ∧ Forall (fun r => extracted r = None) rs
  end.
Proof.
  revert lg. induction rs as [|r rs IH]; intros lg; [done|].
  cbn [for_each_panic]. unfold processRecord_nil at 1.
  destruct (Extract r) as [err|[policy status]] eqn:Hex.
  - specialize (IH (lg ++ [extract_failed err])).
    destruct (for_each_panic processRecord_nil rs _) as [[rs' lg']|].
    + destruct IH as [-> Hall]. split; [done|]. constructor; [|done].
      unfold extracted. by rewrite Hex.
    + destruct IH as (r' & Hin & Hsome). exists r'. split; [by right|done].
  - exists r. split; [left|]. unfold extracted. by rewrite Hex.
Qed.

Lemma for_each_panic_scopes (ilss : list ScopeLogs) (lg : list LogEntry) :
  match
    for_each_panic (fun (ils : ScopeLogs) lg =>
      match for_each_panic processRecord_nil (LogRecords ils) lg with
      | None => None
      | Some (logs, lg) => Some ({| LogRecords := logs |}, lg)
      end) ilss lg
  with
  | None => ∃ r, r ∈ concat (map LogRecords ilss) ∧ is_Some (extracted r)
  | Some (ilss', lg') =>
      ilss' = ilss ∧ Forall (fun r => extracted r = None) (concat (map LogRecords ilss))
  end.
Proof.
  revert lg. induction ilss as [|[logs] ilss IH]; intros lg; simpl; [done|].
  pose proof (for_each_panic_records logs lg) as Hrec.
  destruct (for_each_panic processRecord_nil logs lg) as [[logs' lg1]|].
  - destruct Hrec as [-> Hall]. specialize (IH lg1).
    match goal with |- context [for_each_panic ?f ilss lg1] =>
      destruct (for_each_panic f ilss lg1) as [[ilss' lg2]|] end.
    + destruct IH as [-> Hall']. split; [done|]. by apply Forall_app.
    + destruct IH as (r & Hin & Hsome). exists r. split; [|done].
      apply elem_of_app. by right.
  - destruct Hrec as (r & Hin & Hsome). exists r. split; [|done].
    apply elem_of_app. by left.
Qed.

(** A processor that has not been started has no client.  Such is every
    processor that [newTruthBeamProcessor] returns, and it stays so when
    [start] fails.  On it [processLogs] panics as soon as a record of the
    batch has a key, because [Retrieve] is called on the nil client; a
    batch in which no record has a key is returned as it came, with a nil
    error.  After a successful [start] there is a client. *)
Theorem processLogs_before_start {HttpClient BaseClient : Type}
    (ToClient : Config → error + HttpClient)
    (NewClient : string → HttpClient → error + BaseClient)
    (conf : component_Config) (logger : list LogEntry) (t : truthBeamProcessor) :
  newTruthBeamProcessor conf logger = inr t →
  (∀ err t', truthBeamProcessor_start ToClient NewClient t = (Some err, t') → t' = t) ∧
  (∀ t', truthBeamProcessor_start ToClient NewClient t = (None, t') →
         is_Some (tb_client t')) ∧
  ∀ rv now ld,
    match truthBeamProcessor_processLogs rv now ld t with
    | None => ∃ r, r ∈ records ld ∧ is_Some (extracted r)
    | Some (res, t') =>
        res = (ld, None) ∧ tb_client t' = None ∧
        Forall (fun r => extracted r = None) (records ld)
    end.
Proof.
  intros Hnew. destruct conf as [cfg|]; [|done]. simpl in Hnew. simplify_eq.
  split_and!.
  - intros err t'. unfold truthBeamProcessor_start. simpl.
    destruct (ToClient cfg) as [e|h]; [by intros [= _ <-]|].
    destruct (NewClient (Endpoint cfg) h) as [e|b]; [by intros [= _ <-]|done].
  - intros t'. unfold truthBeamProcessor_start. simpl.
    destruct (ToClient cfg) as [e|h]; [done|].
    destruct (NewClient (Endpoint cfg) h) as [e|b]; [done|].
    intros [= <-]. simpl. eauto.
  - intros rv now ld. unfold truthBeamProcessor_processLogs. simpl.
    match goal with |- context [for_each_panic ?f ld logger] => set (resource := f) end.
    assert (∀ ld lg,
      match for_each_panic resource ld lg with
      | None => ∃ r, r ∈ records ld ∧ is_Some (extracted r)
      | Some (ld', lg') => ld' = ld ∧ Forall (fun r => extracted r = None) (records ld)
      end) as H.
    { clear. induction ld as [|[ilss] ld IH]; intros lg; [done|].
      unfold records in *. simpl. unfold resource at 1. simpl.
      pose proof (for_each_panic_scopes ilss lg) as Hsc. simpl in Hsc.
      match goal with |- context [for_each_panic ?f ilss lg] =>
        destruct (for_each_panic f ilss lg) as [[ilss' lg1]|] end.
      - destruct Hsc as [-> Hall]. specialize (IH lg1).
        destruct (for_each_panic resource ld lg1) as [[ld' lg2]|].
        + destruct IH as [-> Hall']. split; [done|]. by apply Forall_app.
        + destruct IH as (r & Hin & Hsome). exists r. split; [|done].
          apply elem_of_app. by right.
      - destruct Hsc as (r & Hin & Hsome). exists r. split; [|done].
        apply elem_of_app. by left. }
    specialize (H ld logger).
    destruct (for_each_panic resource ld logger) as [[ld' lg']|]; [|done].
    destruct H as [-> Hall]. done.
Qed.

End Client.

(** * Worked instances

    A small concrete world to run the model in: the compliance metadata is
    a string, the response parser reads a success body from a 200 response
    and a structured error from any other response with a body, and the
    remote service is one of four: it answers every request with the
    controls of the engine asked for, it cannot be reached, it cannot be
    reached for the first call only, or it rejects every request with a
    structured error. *)

Definition demo_parse (resp : HttpResponse) : error + @PostV1EnrichResponse string :=
  if decide (StatusCode resp = 200) then
    inr {| JSON200 := Some {| resp_Compliance := Body resp |}; JSONDefault := None |}
  else if decide (Body resp = "") then
    inr {| JSON200 := None; JSONDefault := None |}
  else
    inr {| JSON200 := None;
           JSONDefault := Some {| Code := StatusCode resp; Message := Body resp |} |}.

Definition remote_by_engine (n : nat) (req : EnrichmentRequest) : error + HttpResponse :=
  inr {| Status := "200 OK"; StatusCode := 200;
         Body := "controls-for-" +:+ PolicyEngineName (req_Policy req) |}.

Definition connection_refused : error :=
  errorString "dial tcp 127.0.0.1:8081: connect: connection refused".

Definition remote_down (n : nat) (req : EnrichmentRequest) : error + HttpResponse :=
  inl connection_refused.

Definition remote_flaky (n : nat) (req : EnrichmentRequest) : error + HttpResponse :=
  match n with
  | O => remote_down n req
  | S _ => remote_by_engine n req
  end.

Definition remote_rejects (n : nat) (req : EnrichmentRequest) : error + HttpResponse :=
  inr {| Status := "404 Not Found"; StatusCode := 404; Body := "unknown policy rule" |}.

Definition opa_rule1 : Policy := {| PolicyRuleId := "rule-1"; PolicyEngineName := "opa" |}.
Definition kyverno_rule1 : Policy := {| PolicyRuleId := "rule-1"; PolicyEngineName := "kyverno" |}.
Definition opa_rule2 : Policy := {| PolicyRuleId := "rule-2"; PolicyEngineName := "opa" |}.

(** Two goroutines miss on the fast path, then the first runs its critical
    section to the end before the second takes the lock: the schedule for
    cacheable.go when the first fetch fails. *)
Definition both_miss_first_fails : list event :=
  [Run 0; Run 1;
   Run 0; Run 0; Run 0; Run 0; Run 0;
   Run 1; Run 1; Run 1; Run 1; Run 1; Run 1]%nat.

(** The same interleaving when the first fetch succeeds, up to the moment
    the second goroutine has taken the lock (part_000). *)
Definition both_miss_then_lock : list event :=
  [Run 0; Run 1; Run 0; Run 0; Run 0; Run 0; Run 0; Run 1]%nat.

(** The same interleaving in cacheable.go, run to the end. *)
Definition both_miss_first_succeeds : list event :=
  [Run 0; Run 1;
   Run 0; Run 0; Run 0; Run 0; Run 0; Run 0;
   Run 1; Run 1; Run 1]%nat.

(** Evidence records for the batch loop: a record is its list of
    attributes; the key is read from the attribute ["policy.rule.id"] at
    the head of the record, and applying the result adds an attribute. *)
Definition demo_Extract (r : list (string * string)) : error + Policy * unit :=
  match r with
  | (k, id) :: _ =>
      if decide (k = "policy.rule.id") then
        inr ({| PolicyRuleId := id; PolicyEngineName := "opa" |}, tt)
      else inl (errorString "missing policy.rule.id")
  | [] => inl (errorString "missing policy.rule.id")
  end.

Definition demo_Apply (r : list (string * string)) (v : string) (st : unit)
  : list (string * string) * option error :=
  (r ++ [("compliance.control", v)], None).

Definition record1 : list (string * string) := [("policy.rule.id", "rule-1")].
Definition record2 : list (string * string) := [("message", "no policy here")].
Definition record3 : list (string * string) := [("policy.rule.id", "rule-2")].

Definition demo_batch : @Logs (list (string * string)) :=
  [ {| ScopeLogs_of := [ {| LogRecords := [record1; record2; record3] |} ] |} ].

(** ** Instances of the confirmed properties *)

(** C3 at a concrete input: an entry stored at instant 0 with a TTL of 10
    is served at instant 5 although the remote service cannot be reached. *)
Lemma Retrieve_cached_no_fetch_witness :
  let c := snd (Retrieve_of "" remote_by_engine demo_parse Cacheable 0 opa_rule1
                  (NewCacheableClient 10)) in
  fst (Retrieve_of "" remote_down demo_parse Cacheable 5 opa_rule1 c)
    = ("controls-for-opa"%string, None) ∧
  calls (snd (Retrieve_of "" remote_down demo_parse Cacheable 5 opa_rule1 c)) = calls c ∧
  snd (Retrieve_of "" remote_down demo_parse Cacheable 5 opa_rule1 c) = c.
Proof.
  intros c.
  apply (Retrieve_cached_no_fetch "" remote_down demo_parse Cacheable 5 opa_rule1 c
           {| Object := "controls-for-opa"%string; Expiration := 10 |}).
  - vm_compute. reflexivity.
  - right. simpl. lia.
Defined.

(** C4 at a concrete input: the remote service cannot be reached. *)
Lemma Retrieve_failure_not_cached_witness :
  ∃ e c', Retrieve_of "" remote_down demo_parse Cacheable 0 opa_rule1 (NewCacheableClient 10)
          = (("", Some e), c') ∧
          cache c' = cache (NewCacheableClient 10) ∧
          ∀ now', 0 ≤ now' → cache_Get (cache c') now' "rule-1" = None.
Proof.
  apply (Retrieve_failure_not_cached "" remote_down demo_parse Cacheable 0 opa_rule1
           (NewCacheableClient 10) connection_refused).
  - vm_compute. reflexivity.
  - vm_compute. reflexivity.
Defined.

(** C10 at a concrete input: the remote service rejects the request. *)
Lemma Retrieve_error_zero_value_witness :
  fst (fst (Retrieve_of "" remote_rejects demo_parse Part000 0 opa_rule1
              (NewCacheableClient 10))) = ""%string.
Proof.
  eapply (Retrieve_error_zero_value "" remote_rejects demo_parse Part000 0 opa_rule1
            (NewCacheableClient 10)).
  vm_compute. reflexivity.
Defined.

(** C8 at concrete inputs: a client that never expires its entries still
    serves the first result at a much later instant and after the remote
    service has gone; a client with a TTL of 10 that fetched at instant 0
    sends one new request at instant 11 and none at instant 10. *)
Lemma Retrieve_respects_ttl_witness :
  (let c1 := snd (Retrieve_of "" remote_by_engine demo_parse Cacheable 0 opa_rule1
                    (NewCacheableClient NoExpiration)) in
   ∀ h2 t1,
     let c3 := Retrieve_all "" remote_by_engine demo_parse Cacheable h2 c1 in
     Retrieve_of "" remote_by_engine demo_parse Cacheable t1 opa_rule1 c3
     = (("controls-for-opa"%string, None), c3)) ∧
  (let c1 := snd (Retrieve_of "" remote_by_engine demo_parse Cacheable 0 opa_rule1
                    (NewCacheableClient 10)) in
   calls (snd (Retrieve_of "" remote_by_engine demo_parse Cacheable 11 opa_rule1 c1))
   = calls c1 ++ [{| req_Policy := opa_rule1 |}] ∧
   Retrieve_of "" remote_by_engine demo_parse Cacheable 10 opa_rule1 c1
   = (("controls-for-opa"%string, None), c1)).
Proof.
  split.
  - intros c1.
    refine (proj1 (Retrieve_respects_ttl "" remote_by_engine demo_parse Cacheable
                     NoExpiration [] 0 opa_rule1 "controls-for-opa"%string c1 _) eq_refl).
    vm_compute. reflexivity.
  - intros c1.
    assert (Retrieve_of "" remote_by_engine demo_parse Cacheable 0 opa_rule1
              (Retrieve_all "" remote_by_engine demo_parse Cacheable [] (NewCacheableClient 10))
            = (("controls-for-opa"%string, None), c1)) as HR
      by (vm_compute; reflexivity).
    destruct (proj2 (Retrieve_respects_ttl "" remote_by_engine demo_parse Cacheable
                       10 [] 0 opa_rule1 "controls-for-opa"%string c1 HR))
      as [Hafter Hbefore]; [lia|lia|vm_compute; reflexivity|].
    split; [apply Hafter|apply Hbefore]; lia.
Defined.

(** C7 at a concrete input: a batch of three records of which the second
    has no key.  The first and the third are enriched, the second passes
    through as it is, and no error is returned. *)
Lemma processLogs_continue_on_error_witness :
  fst (processLogs "" remote_by_engine demo_parse demo_Extract demo_Apply Cacheable 0
         demo_batch (NewCacheableClient 10))
  = ([ {| ScopeLogs_of := [ {| LogRecords :=
         [record1 ++ [("compliance.control", "controls-for-opa")];
          record2;
          record3 ++ [("compliance.control", "controls-for-opa")]] |} ] |} ],
     None) ∧
  let body := processRecord "" remote_by_engine demo_parse demo_Extract demo_Apply Cacheable 0 in
  let c1 := snd (for_each body [record1] (NewCacheableClient 10)) in
  let c2 := snd (body record2 c1) in
  for_each body ([record1] ++ record2 :: [record3]) (NewCacheableClient 10)
  = (fst (for_each body [record1] (NewCacheableClient 10))
       ++ record2 :: fst (for_each body [record3] c2),
     snd (for_each body [record3] c2)) ∧
  cache c2 = cache c1.
Proof.
  split.
  - vm_compute. reflexivity.
  - apply (proj2 (proj2 (processLogs_continue_on_error "" remote_by_engine demo_parse
                           demo_Extract demo_Apply Cacheable 0))).
    exact I.
Defined.

(** ** Where the code departs from the specification *)

(** C1, as stated, fails in cacheable.go: two goroutines call [Retrieve]
    for the same key, which is not cached, and both miss on the fast path.
    The fetch of the first fails, nothing is stored, and the second, once
    it has the lock, misses again and sends a request of its own: the
    remote service is called twice, and the two callers do not observe the
    same outcome. *)
Lemma Retrieve_dedup_second_fetch_after_error :
  cache_Get (cache (@NewCacheableClient string NoExpiration)) 0 "rule-1" = None ∧
  ∃ s, run "" remote_flaky demo_parse Cacheable both_miss_first_fails
         (start (NewCacheableClient NoExpiration) 0 [opa_rule1; opa_rule1]) = Some s ∧
       fetches_for "rule-1" (sys_client s) = 2%nat ∧
       map result_of (sys_threads s)
       = [Some ("", Some (Errorf_w "failed to fetch metadata: " connection_refused));
          Some ("controls-for-opa", None)].
Proof.
  split; [vm_compute; reflexivity|].
  eexists. split; [vm_compute; reflexivity|].
  split; vm_compute; reflexivity.
Qed.

(** C1 (amended) at a concrete input: the same two goroutines against a
    remote service that answers.  One request is sent and both callers
    return its value. *)
Lemma Retrieve_dedup_witness :
  ∃ s, run "" remote_by_engine demo_parse Cacheable both_miss_first_succeeds
         (start (NewCacheableClient NoExpiration) 0 [opa_rule1; opa_rule1]) = Some s ∧
       (fetches_in_flight s ≤ 1)%nat ∧
       fetches_for "rule-1" (sys_client s) = 1%nat ∧
       ∀ j g ret, sys_threads s !! j = Some g → PolicyRuleId (g_policy g) = "rule-1" →
                  g_pc g = Returned ret → ret = ("controls-for-opa"%string, None).
Proof.
  destruct (run "" remote_by_engine demo_parse Cacheable both_miss_first_succeeds
              (start (NewCacheableClient NoExpiration) 0 [opa_rule1; opa_rule1]))
    as [s|] eqn:Hrun; [|vm_compute in Hrun; discriminate].
  exists s. split; [reflexivity|].
  destruct (Retrieve_dedup "" remote_by_engine demo_parse
              (NewCacheableClient NoExpiration) 0 [opa_rule1; opa_rule1]
              both_miss_first_succeeds s "rule-1" Hrun) as [Hflight Hdedup].
  split; [exact Hflight|].
  destruct Hdedup as [_ Hret].
  - vm_compute. reflexivity.
  - intros n p _. unfold enrich_result, remote_by_engine, demo_parse. simpl. eauto.
  - left. vm_compute. discriminate.
  - vm_compute in Hrun. injection Hrun as <-.
    destruct (Hret 0%nat
                {| g_policy := opa_rule1; g_pc := Returned ("controls-for-opa"%string, None) |}
                ("controls-for-opa"%string, None) eq_refl eq_refl eq_refl)
      as (Hn & _ & Hsame).
    split; [exact Hn|]. intros j g ret Hj HK Hpc. exact (Hsame j g ret Hj HK Hpc).
Defined.

(** C2 fails in part_000.  Two goroutines miss on the fast path; the first
    fetches, stores the value and releases the lock; the second takes the
    lock.  The store now serves the key, yet the next statement of the
    second goroutine sends a second request.  In cacheable.go the same
    interleaving ends with one request and both callers served. *)
Theorem Retrieve_part000_fetches_under_lock :
  (∃ s1 s2,
     run "" remote_by_engine demo_parse Part000 both_miss_then_lock
       (start (NewCacheableClient NoExpiration) 0 [opa_rule1; opa_rule1]) = Some s1 ∧
     sys_mu s1 = Some 1%nat ∧
     cache_Get (cache (sys_client s1)) (sys_now s1) "rule-1" = Some "controls-for-opa"%string ∧
     calls (sys_client s1) = [{| req_Policy := opa_rule1 |}] ∧
     step "" remote_by_engine demo_parse Part000 (Run 1) s1 = Some s2 ∧
     calls (sys_client s2) = [{| req_Policy := opa_rule1 |}; {| req_Policy := opa_rule1 |}]) ∧
  (∃ s, run "" remote_by_engine demo_parse Cacheable both_miss_first_succeeds
          (start (NewCacheableClient NoExpiration) 0 [opa_rule1; opa_rule1]) = Some s ∧
        calls (sys_client s) = [{| req_Policy := opa_rule1 |}] ∧
        map result_of (sys_threads s)
        = [Some ("controls-for-opa", None); Some ("controls-for-opa", None)]).
Proof.
  split.
  - eexists _, _. split; [vm_compute; reflexivity|].
    split; [reflexivity|]. split; [vm_compute; reflexivity|].
    split; [reflexivity|]. split; [vm_compute; reflexivity|]. reflexivity.
  - eexists. split; [vm_compute; reflexivity|]. split; reflexivity.
Qed.

(** C5 fails in part_000.  The remote service answers with a structured
    error (code 404, message "unknown policy rule"); part_000 reports an
    unexpected response status and drops the code and the message, where
    cacheable.go reports them. *)
Theorem callEnrich_part000_drops_remote_error :
  demo_parse {| Status := "404 Not Found"; StatusCode := 404; Body := "unknown policy rule" |}
  = inr {| JSON200 := None;
           JSONDefault := Some {| Code := 404; Message := "unknown policy rule" |} |} ∧
  fst (callEnrich_part000 remote_rejects demo_parse {| req_Policy := opa_rule1 |}
         (NewCacheableClient 10))
  = inl (errorString "unexpected response status: 404 Not Found") ∧
  fst (callEnrich remote_rejects demo_parse {| req_Policy := opa_rule1 |}
         (NewCacheableClient 10))
  = inl (errorString "API call failed with status 404: unknown policy rule").
Proof. split_and!; vm_compute; reflexivity. Qed.

(** C6, as stated, fails: two policies with the same rule identifier and
    different engine names address the same entry.  After a call for the
    first, a call for the second returns the first's result from the cache,
    although the remote service would answer differently for it. *)
Lemma Retrieve_serves_other_engine :
  let c1 := snd (Retrieve_of "" remote_by_engine demo_parse Cacheable 0 opa_rule1
                   (NewCacheableClient 10)) in
  PolicyEngineName opa_rule1 ≠ PolicyEngineName kyverno_rule1 ∧
  Retrieve_of "" remote_by_engine demo_parse Cacheable 0 kyverno_rule1 c1
  = (("controls-for-opa"%string, None), c1) ∧
  fst (Retrieve_of "" remote_by_engine demo_parse Cacheable 0 kyverno_rule1
         (NewCacheableClient 10))
  = ("controls-for-kyverno"%string, None).
Proof. split_and!; [discriminate|vm_compute; reflexivity..]. Qed.

(** C6 (amended) at concrete inputs. *)
Lemma Retrieve_key_is_rule_id_witness :
  let c := @NewCacheableClient string 10 in
  let c1 := snd (Retrieve_of "" remote_by_engine demo_parse Cacheable 0 opa_rule1 c) in
  cache_Get (cache c1) 5 "rule-2" = cache_Get (cache c) 5 "rule-2" ∧
  Retrieve_of "" remote_by_engine demo_parse Cacheable 0 kyverno_rule1 c1
  = (("controls-for-opa"%string, None), c1).
Proof.
  intros c c1. split.
  - apply (proj1 (Retrieve_key_is_rule_id "" remote_by_engine demo_parse Cacheable
                    0 5 opa_rule1 opa_rule2 c)).
    discriminate.
  - apply (proj2 (Retrieve_key_is_rule_id "" remote_by_engine demo_parse Cacheable
                    0 0 opa_rule1 kyverno_rule1 c) eq_refl "controls-for-opa"%string c1).
    vm_compute. reflexivity.
Defined.

(** C9, as stated, fails: the error returned for a failed call is the same
    for two different keys and its message does not mention the key; the
    same holds along its [Unwrap] chain.  Both revisions. *)
Lemma Retrieve_error_omits_key :
  PolicyRuleId opa_rule1 ≠ PolicyRuleId opa_rule2 ∧
  ∀ rv, ∃ e,
    snd (fst (Retrieve_of "" remote_down demo_parse rv 0 opa_rule1 (NewCacheableClient 10)))
    = Some e ∧
    snd (fst (Retrieve_of "" remote_down demo_parse rv 0 opa_rule2 (NewCacheableClient 10)))
    = Some e ∧
    contains "rule-1" (Error e) = false ∧
    contains "opa" (Error e) = false ∧
    wraps e connection_refused.
Proof.
  split; [discriminate|].
  intros [|]; eexists; (split_and!; [vm_compute; reflexivity..|]); simpl; auto.
Qed.

(** C9 (amended) at a concrete input. *)
Lemma Retrieve_error_wraps_fetch_error_witness :
  ∃ e, snd (fst (Retrieve_of "" remote_down demo_parse Cacheable 0 opa_rule1
                   (NewCacheableClient 10))) = Some e ∧
       wraps e connection_refused ∧
       e = Errorf_w "failed to fetch metadata: " connection_refused ∧
       last (logger (snd (Retrieve_of "" remote_down demo_parse Cacheable 0 opa_rule1
                            (NewCacheableClient 10))))
       = Some (Retrieve_failed opa_rule1 connection_refused).
Proof.
  apply (Retrieve_error_wraps_fetch_error "" remote_down demo_parse Cacheable 0 opa_rule1
           (NewCacheableClient 10) connection_refused).
  - vm_compute. reflexivity.
  - vm_compute. reflexivity.
Defined.

(** ** Instances of the further properties *)

(** An applier whose [Apply] refuses every record. *)
Definition demo_Apply_readonly (r : list (string * string)) (v : string) (st : unit)
  : list (string * string) * option error :=
  (("enrichment.attempted", "true") :: r, Some (errorString "record is read-only")).

Definition demo_config : Config :=
  {| Endpoint := "http://localhost:8081"; CacheTTL := 10 |}.

(** The collector cannot build its HTTP client. *)
Definition demo_ToClient_fails (cfg : Config) : error + unit :=
  inl (errorString "failed to load TLS config").

Definition demo_ToClient (cfg : Config) : error + unit := inr tt.

Definition demo_NewClient (endpoint : string) (h : unit) : error + unit := inr tt.

(** The mapping of [callEnrich] at a structured error of the remote
    service. *)
Lemma callEnrich_maps_outcomes_witness :
  fst (callEnrich remote_rejects demo_parse {| req_Policy := opa_rule1 |}
         (NewCacheableClient 10))
  = inl (api_error {| Code := 404; Message := "unknown policy rule" |}) ∧
  Error (api_error {| Code := 404; Message := "unknown policy rule" |})
  = "API call failed with status " +:+ pretty 404 +:+ ": " +:+ "unknown policy rule" ∧
  api_error {| Code := 404; Message := "unknown policy rule" |}
  ≠ unexpected_response
      {| Status := "404 Not Found"; StatusCode := 404; Body := "unknown policy rule" |}.
Proof.
  exact (callEnrich_maps_outcomes remote_rejects demo_parse {| req_Policy := opa_rule1 |}
           (NewCacheableClient 10)
           {| Status := "404 Not Found"; StatusCode := 404; Body := "unknown policy rule" |}
           {| JSON200 := None;
              JSONDefault := Some {| Code := 404; Message := "unknown policy rule" |} |}
           eq_refl eq_refl).
Defined.

(** One goroutine on its own, against a remote service that answers. *)
Lemma Retrieve_of_solo_witness :
  let s := start (@NewCacheableClient string 10) 0 [opa_rule1] in
  let r := Retrieve_of "" remote_by_engine demo_parse Cacheable 0 opa_rule1
             (NewCacheableClient 10) in
  ∃ n, run "" remote_by_engine demo_parse Cacheable (replicate n (Run 0)) s
       = Some {| sys_client := snd r; sys_now := 0; sys_mu := None;
                 sys_threads := alter (with_pc (Returned (fst r))) 0%nat (sys_threads s) |}.
Proof.
  exact (Retrieve_of_solo "" remote_by_engine demo_parse Cacheable 0
           (start (NewCacheableClient 10) 0 [opa_rule1])
           {| g_policy := opa_rule1; g_pc := AtFastGet |} eq_refl eq_refl eq_refl).
Defined.

(** Mutual exclusion in part_000, in the state where the second goroutine
    has just taken the lock. *)
Lemma Retrieve_mutual_exclusion_witness :
  ∃ s, run "" remote_by_engine demo_parse Part000 both_miss_then_lock
         (start (NewCacheableClient NoExpiration) 0 [opa_rule1; opa_rule1]) = Some s ∧
       (fetches_in_flight s ≤ 1)%nat ∧
       ∀ i j gi gj, sys_threads s !! i = Some gi → sys_threads s !! j = Some gj →
                    holds_lock (g_pc gi) = true → holds_lock (g_pc gj) = true → i = j.
Proof.
  destruct (run "" remote_by_engine demo_parse Part000 both_miss_then_lock
              (start (NewCacheableClient NoExpiration) 0 [opa_rule1; opa_rule1]))
    as [s|] eqn:Hrun; [|vm_compute in Hrun; discriminate].
  exists s. split; [reflexivity|].
  exact (Retrieve_mutual_exclusion "" remote_by_engine demo_parse Part000
           (NewCacheableClient NoExpiration) 0 [opa_rule1; opa_rule1]
           both_miss_then_lock s Hrun).
Defined.

(** The lock in the same state: it is held, and somebody can run. *)
Lemma Retrieve_releases_lock_witness :
  ∃ s, run "" remote_by_engine demo_parse Part000 both_miss_then_lock
         (start (NewCacheableClient NoExpiration) 0 [opa_rule1; opa_rule1]) = Some s ∧
       (sys_mu s = None ↔
        ∀ i g, sys_threads s !! i = Some g → holds_lock (g_pc g) = false) ∧
       ∃ j s', step_thread "" remote_by_engine demo_parse Part000 j s = Some s'.
Proof.
  destruct (run "" remote_by_engine demo_parse Part000 both_miss_then_lock
              (start (NewCacheableClient NoExpiration) 0 [opa_rule1; opa_rule1]))
    as [s|] eqn:Hrun; [|vm_compute in Hrun; discriminate].
  exists s. split; [reflexivity|].
  destruct (Retrieve_releases_lock "" remote_by_engine demo_parse Part000
              (NewCacheableClient NoExpiration) 0 [opa_rule1; opa_rule1]
              both_miss_then_lock s Hrun) as [Hfree Hprogress].
  split; [exact Hfree|]. apply Hprogress.
  vm_compute in Hrun. injection Hrun as <-.
  exists 1%nat, {| g_policy := opa_rule1; g_pc := AtCall |}. split; reflexivity.
Defined.

(** cacheable.go while the first goroutine waits for the response: its key
    is not served. *)
Lemma Retrieve_fetches_only_unserved_keys_witness :
  ∃ s, run "" remote_by_engine demo_parse Cacheable [Run 0; Run 1; Run 0; Run 0; Run 0]%nat
         (start (NewCacheableClient NoExpiration) 0 [opa_rule1; opa_rule1]) = Some s ∧
       ∀ i g, sys_threads s !! i = Some g → fetching (g_pc g) = true →
              cache_Get (cache (sys_client s)) (sys_now s) (PolicyRuleId (g_policy g)) = None.
Proof.
  destruct (run "" remote_by_engine demo_parse Cacheable [Run 0; Run 1; Run 0; Run 0; Run 0]%nat
              (start (NewCacheableClient NoExpiration) 0 [opa_rule1; opa_rule1]))
    as [s|] eqn:Hrun; [|vm_compute in Hrun; discriminate].
  exists s. split; [reflexivity|].
  exact (Retrieve_fetches_only_unserved_keys "" remote_by_engine demo_parse
           (NewCacheableClient NoExpiration) 0 [opa_rule1; opa_rule1] _ s Hrun).
Defined.

(** Two concurrent callers for a cached key while the remote service is
    down: both are served and nothing is sent. *)
Lemma Retrieve_concurrent_hits_witness :
  let c := snd (Retrieve_of "" remote_by_engine demo_parse Cacheable 0 opa_rule1
                  (NewCacheableClient NoExpiration)) in
  ∃ s, run "" remote_down demo_parse Part000 [Run 0; Run 1]%nat
         (start c 0 [opa_rule1; kyverno_rule1]) = Some s ∧
       fetches_for "rule-1" (sys_client s) = fetches_for "rule-1" c ∧
       ∀ i g, sys_threads s !! i = Some g → PolicyRuleId (g_policy g) = "rule-1" →
              g_pc g = AtFastGet ∨ g_pc g = Returned ("controls-for-opa"%string, None).
Proof.
  intros c.
  destruct (run "" remote_down demo_parse Part000 [Run 0; Run 1]%nat
              (start c 0 [opa_rule1; kyverno_rule1]))
    as [s|] eqn:Hrun; [|vm_compute in Hrun; discriminate].
  exists s. split; [reflexivity|].
  apply (Retrieve_concurrent_hits "" remote_down demo_parse Part000 c 0
           [opa_rule1; kyverno_rule1] [Run 0; Run 1]%nat s "rule-1"
           {| Object := "controls-for-opa"%string; Expiration := 0 |} Hrun).
  - vm_compute. reflexivity.
  - left. simpl. lia.
Defined.

(** A failed call and the next one, five nanoseconds later. *)
Lemma Retrieve_retries_after_failure_witness :
  let c := @NewCacheableClient string 10 in
  let c' := snd (Retrieve_of "" remote_down demo_parse Cacheable 0 opa_rule1 c) in
  calls c' = calls c ++ [{| req_Policy := opa_rule1 |}] ∧
  calls (snd (Retrieve_of "" remote_down demo_parse Cacheable 5 opa_rule1 c'))
  = calls c ++ [{| req_Policy := opa_rule1 |}; {| req_Policy := opa_rule1 |}].
Proof.
  intros c c'.
  apply (Retrieve_retries_after_failure "" remote_down demo_parse Cacheable 0 5 opa_rule1
           c c' "" (Errorf_w "failed to fetch metadata: " connection_refused)).
  - vm_compute. reflexivity.
  - lia.
Defined.

(** A client constructed with the zero TTL of an unset [cache_ttl]: the
    first answer is still served a million nanoseconds and another call
    later. *)
Lemma Retrieve_nonpositive_ttl_never_expires_witness :
  let c1 := snd (Retrieve_of "" remote_by_engine demo_parse Cacheable 0 opa_rule1
                   (NewCacheableClient 0)) in
  let c3 := Retrieve_all "" remote_by_engine demo_parse Cacheable [(5, opa_rule2)] c1 in
  Retrieve_of "" remote_by_engine demo_parse Cacheable 1000000 opa_rule1 c3
  = (("controls-for-opa"%string, None), c3).
Proof.
  intros c1.
  apply (Retrieve_nonpositive_ttl_never_expires "" remote_by_engine demo_parse Cacheable
           0 [] 0 opa_rule1 "controls-for-opa"%string c1).
  - lia.
  - vm_compute. reflexivity.
Defined.

(** A fetch at instant 0 with a TTL of 10, hits at 3 and at 10, and a call
    at 11. *)
Lemma Retrieve_ttl_is_not_sliding_witness :
  let c1 := snd (Retrieve_of "" remote_by_engine demo_parse Cacheable 0 opa_rule1
                   (NewCacheableClient 10)) in
  Retrieve_all "" remote_by_engine demo_parse Cacheable
    (map (fun t => (t, opa_rule1)) [3; 10]) c1 = c1 ∧
  calls (snd (Retrieve_of "" remote_by_engine demo_parse Cacheable 11 opa_rule1
                (Retrieve_all "" remote_by_engine demo_parse Cacheable
                   (map (fun t => (t, opa_rule1)) [3; 10]) c1)))
  = calls c1 ++ [{| req_Policy := opa_rule1 |}].
Proof.
  intros c1.
  destruct (Retrieve_ttl_is_not_sliding "" remote_by_engine demo_parse Cacheable
              10 [] 0 opa_rule1 "controls-for-opa"%string c1 [3; 10])
    as [Hsame Hafter].
  - lia.
  - lia.
  - vm_compute. reflexivity.
  - vm_compute. reflexivity.
  - repeat constructor; lia.
  - split; [exact Hsame|]. apply Hafter. lia.
Defined.

(** A batch whose second record cannot be written to. *)
Lemma processLogs_apply_failure_witness :
  let body := processRecord "" remote_by_engine demo_parse demo_Extract demo_Apply_readonly
                Cacheable 0 in
  let c := @NewCacheableClient string 10 in
  let c1 := snd (for_each body [record2] c) in
  let c1' := snd (Retrieve_of "" remote_by_engine demo_parse Cacheable 0 opa_rule1 c1) in
  let c2 := log_write (apply_failed opa_rule1 (errorString "record is read-only")) c1' in
  for_each body ([record2] ++ record1 :: [record2]) c
  = (fst (for_each body [record2] c)
       ++ (("enrichment.attempted", "true") :: record1) :: fst (for_each body [record2] c2),
     snd (for_each body [record2] c2)).
Proof.
  intros body c c1 c1' c2.
  apply (processLogs_apply_failure "" remote_by_engine demo_parse demo_Extract
           demo_Apply_readonly Cacheable 0 [record2] [record2] record1
           (("enrichment.attempted", "true") :: record1) c c1' opa_rule1 tt
           "controls-for-opa"%string (errorString "record is read-only")).
  - reflexivity.
  - vm_compute. reflexivity.
  - reflexivity.
Defined.

(** A batch with three records for the same rule identifier. *)
Lemma processLogs_fetches_key_once_witness :
  let ld := [ {| ScopeLogs_of := [ {| LogRecords := [record1; record1] |};
                                   {| LogRecords := [record1] |} ] |} ] in
  let c := @NewCacheableClient string NoExpiration in
  let c' := snd (processLogs "" remote_by_engine demo_parse demo_Extract demo_Apply
                   Cacheable 0 ld c) in
  (fetches_for "rule-1" c' ≤ S (fetches_for "rule-1" c))%nat ∧
  (is_Some (items (cache c) !! "rule-1") → fetches_for "rule-1" c' = fetches_for "rule-1" c).
Proof.
  intros ld c c'.
  apply (processLogs_fetches_key_once "" remote_by_engine demo_parse demo_Extract demo_Apply
           Cacheable 0 ld c "rule-1").
  - split; [vm_compute; discriminate|]. intros k item. vm_compute. discriminate.
  - intros n p _. unfold enrich_result_of, enrich_result, remote_by_engine, demo_parse.
    simpl. eauto.
Defined.

(** A processor that was never started, and a batch whose first record has
    a key. *)
Lemma processLogs_before_start_witness :
  let t := {| tb_config := demo_config; tb_logger := []; tb_client := None |} in
  (∀ err t', truthBeamProcessor_start demo_ToClient_fails demo_NewClient t = (Some err, t') →
             t' = t) ∧
  (∀ t', truthBeamProcessor_start (Compliance := string) demo_ToClient_fails demo_NewClient t
         = (None, t') → is_Some (tb_client t')) ∧
  ∀ rv now ld,
    match truthBeamProcessor_processLogs "" remote_by_engine demo_parse demo_Extract
            demo_Apply rv now ld t with
    | None => ∃ r, r ∈ records ld ∧ is_Some (extracted demo_Extract r)
    | Some (res, t') =>
        res = (ld, None) ∧ tb_client t' = None ∧
        Forall (fun r => extracted demo_Extract r = None) (records ld)
    end.
Proof.
  intros t.
  exact (processLogs_before_start "" remote_by_engine demo_parse demo_Extract demo_Apply
           demo_ToClient_fails demo_NewClient (IsConfig demo_config) [] t eq_refl).
Defined.

(** The same processor on the batch of three records: it panics before
    [start] and enriches the batch after it. *)
Lemma processor_life_cycle_example :
  let t := {| tb_config := demo_config; tb_logger := []; tb_client := None |} in
  let t1 := snd (truthBeamProcessor_start (Compliance := string) demo_ToClient demo_NewClient t) in
  truthBeamProcessor_processLogs "" remote_by_engine demo_parse demo_Extract demo_Apply
    Cacheable 0 demo_batch t = None ∧
  option_map (fun r => fst r)
    (truthBeamProcessor_processLogs "" remote_by_engine demo_parse demo_Extract demo_Apply
       Cacheable 0 demo_batch t1)
  = Some ([ {| ScopeLogs_of := [ {| LogRecords :=
              [record1 ++ [("compliance.control", "controls-for-opa")];
               record2;
               record3 ++ [("compliance.control", "controls-for-opa")]] |} ] |} ],
          None).
Proof. split; vm_compute; reflexivity. Qed.
